(** * A shallow embedding of the BerryPay payment processor ([src/processor.ts])

    The processor keeps two JS [Map]s (charges by id, charge id by address),
    a next sub-account index, the Event Monitor's watched addresses, a
    debounced persistence timer and the persisted file.  Every operation is a
    function on an explicit [Processor] state; answers of the Ledger Client
    and of [fetch] are inputs of the operation (one answer per call).

    Conventions:
    - a raw amount is a decimal integer string in the source; it is modelled
      by the integer it denotes ([Z]); [BigInt(s)] and [x.toString()] are
      then the identity, and the persisted text is [dec z];
    - a JS [Date] is its time value: [Some t] (ms since the epoch) or [None]
      for an Invalid Date (NaN);
    - the Ledger Client's [deriveAccount], the library conversions
      [rawToNano]/[nanoToRaw], [Date.prototype.toISOString] and
      [Date.parse] are Section variables: they are not code of this
      repository;
    - one async operation runs to completion before the next one starts. *)

From Stdlib Require Import String List ZArith Bool Lia.
From Stdlib Require Import DecimalString DecimalZ Relations.
Import ListNotations.
Local Open Scope string_scope.
Local Open Scope list_scope.
Local Open Scope Z_scope.

(** ** JS [Map<string, V>] as an association list in insertion order *)

Section Maps.
Context {V : Type}.

(** [m.get(k)] *)
Fixpoint map_get (k : string) (m : list (string * V)) : option V :=
  match m with
  | [] => None
  | (k', v) :: m' => if String.eqb k k' then Some v else map_get k m'
  end.

(** [m.set(k, v)]: an existing key keeps its position, a new one is appended *)
Fixpoint map_set (k : string) (v : V) (m : list (string * V)) : list (string * V) :=
  match m with
  | [] => [(k, v)]
  | (k', v') :: m' =>
      if String.eqb k k' then (k, v) :: m' else (k', v') :: map_set k v m'
  end.

(** [m.delete(k)] (a [Map] holds each key once) *)
Definition map_delete (k : string) (m : list (string * V)) : list (string * V) :=
  filter (fun kv => negb (String.eqb (fst kv) k)) m.

End Maps.

(** A JS [Set<string>] (the Event Monitor's watched accounts) *)
Definition set_add (a : string) (l : list string) : list string :=
  if existsb (String.eqb a) l then l else l ++ [a].
Definition set_remove (a : string) (l : list string) : list string :=
  filter (fun x => negb (String.eqb x a)) l.

(** ** Data model *)

Inductive ChargeStatus := pending | partial | completed | expired | swept.

Definition ChargeStatus_eq_dec (a b : ChargeStatus) : {a = b} + {a <> b}.
Proof. decide equality. Defined.

Definition status_eqb (a b : ChargeStatus) : bool :=
  if ChargeStatus_eq_dec a b then true else false.

(** A JS [Date]: [None] is an Invalid Date *)
Definition Date := option Z.

(** ECMAScript TimeClip: a time value beyond 8.64e15 ms is NaN *)
Definition maxTime : Z := 8640000000000000.
Definition TimeClip (x : option Z) : Date :=
  match x with
  | Some t => if Z.abs t <=? maxTime then Some t else None
  | None => None
  end.

Definition valid_date (d : Date) : bool :=
  match d with Some t => Z.abs t <=? maxTime | None => false end.

(** JSON data (the snapshot file and the metadata blob) *)
Local Set Warnings "-register-all".
Inductive json :=
| JNull
| JBool (b : bool)
| JNum (n : Z)
| JStr (s : string)
| JArr (l : list json)
| JObj (fields : list (string * json)).

Module Tx.
(** [PaymentTransaction] *)
Record t := mk {
  hash : string;
  from : string;
  amountRaw : Z;
  amountNano : string;
  timestamp : Date
}.
End Tx.

(** [Charge] *)
Record Charge := mkCharge {
  id : string;
  address : string;
  accountIndex : Z;
  amountRaw : Z;
  amountNano : string;
  receivedRaw : Z;
  receivedNano : string;
  status : ChargeStatus;
  transactions : list Tx.t;
  createdAt : Date;
  expiresAt : Date;
  completedAt : option Date;
  sweptAt : option Date;
  sweepTxHash : option string;
  webhookUrl : option string;
  webhookSent : option bool;
  metadata : option json
}.

Definition set_status (s : ChargeStatus) (c : Charge) : Charge :=
  mkCharge c.(id) c.(address) c.(accountIndex) c.(amountRaw) c.(amountNano)
    c.(receivedRaw) c.(receivedNano) s c.(transactions) c.(createdAt) c.(expiresAt)
    c.(completedAt) c.(sweptAt) c.(sweepTxHash) c.(webhookUrl) c.(webhookSent)
    c.(metadata).

(** [charge.transactions.push(tx)] followed by the update of [receivedRaw]
    ([BigInt(receivedRaw) + BigInt(tx amount)]) and of [receivedNano] *)
Definition push_payment (rawToNano : Z -> string) (tx : Tx.t) (c : Charge) : Charge :=
  let r := c.(receivedRaw) + tx.(Tx.amountRaw) in
  mkCharge c.(id) c.(address) c.(accountIndex) c.(amountRaw) c.(amountNano)
    r (rawToNano r) c.(status) (c.(transactions) ++ [tx]) c.(createdAt)
    c.(expiresAt) c.(completedAt) c.(sweptAt) c.(sweepTxHash) c.(webhookUrl)
    c.(webhookSent) c.(metadata).

(** [charge.status = "completed"; charge.completedAt = new Date()] *)
Definition mark_completed (now : Z) (c : Charge) : Charge :=
  mkCharge c.(id) c.(address) c.(accountIndex) c.(amountRaw) c.(amountNano)
    c.(receivedRaw) c.(receivedNano) completed c.(transactions) c.(createdAt)
    c.(expiresAt) (Some (Some now)) c.(sweptAt) c.(sweepTxHash) c.(webhookUrl)
    c.(webhookSent) c.(metadata).

(** [charge.status = "swept"; charge.sweptAt = new Date(); charge.sweepTxHash = hash] *)
Definition mark_swept (now : Z) (h : string) (c : Charge) : Charge :=
  mkCharge c.(id) c.(address) c.(accountIndex) c.(amountRaw) c.(amountNano)
    c.(receivedRaw) c.(receivedNano) swept c.(transactions) c.(createdAt)
    c.(expiresAt) c.(completedAt) (Some (Some now)) (Some h) c.(webhookUrl)
    c.(webhookSent) c.(metadata).

(** [charge.webhookSent = true] *)
Definition mark_webhook_sent (c : Charge) : Charge :=
  mkCharge c.(id) c.(address) c.(accountIndex) c.(amountRaw) c.(amountNano)
    c.(receivedRaw) c.(receivedNano) c.(status) c.(transactions) c.(createdAt)
    c.(expiresAt) c.(completedAt) c.(sweptAt) c.(sweepTxHash) c.(webhookUrl)
    (Some true) c.(metadata).

(** JS truthiness of an optional string field *)
Definition truthy_str (o : option string) : bool :=
  match o with Some s => negb (String.eqb s "") | None => false end.

(** JS truthiness of an optional boolean field *)
Definition truthy_bool (o : option bool) : bool :=
  match o with Some b => b | None => false end.

(** [PersistedState] *)
Record PersistedState := mkPersisted {
  ps_nextAccountIndex : Z;
  ps_charges : list Charge;
  ps_updatedAt : string
}.

(** The processor's state.  [disk] is the content of the persist file (the
    JSON tree that [JSON.stringify] writes and [JSON.parse] reads back);
    [events] are the emitted events (name, charge id); [webhookPosts] the
    [fetch] POSTs (url, payload); [ledgerSends] the calls of
    [wallet.send(to, amount, fromIndex)]. *)
Record Processor := mkProcessor {
  charges : list (string * Charge);
  addressToChargeId : list (string * string);
  nextAccountIndex : Z;
  mainAccountIndex : Z;
  autoSweep : bool;
  monitored : list string;
  saveDebounceTimer : bool;
  disk : option json;
  events : list (string * string);
  webhookPosts : list (string * json);
  ledgerSends : list (string * Z * Z)
}.

Definition set_charges (m : list (string * Charge)) (p : Processor) : Processor :=
  mkProcessor m p.(addressToChargeId) p.(nextAccountIndex) p.(mainAccountIndex)
    p.(autoSweep) p.(monitored) p.(saveDebounceTimer) p.(disk) p.(events)
    p.(webhookPosts) p.(ledgerSends).
Definition set_addr (m : list (string * string)) (p : Processor) : Processor :=
  mkProcessor p.(charges) m p.(nextAccountIndex) p.(mainAccountIndex)
    p.(autoSweep) p.(monitored) p.(saveDebounceTimer) p.(disk) p.(events)
    p.(webhookPosts) p.(ledgerSends).
Definition set_next (n : Z) (p : Processor) : Processor :=
  mkProcessor p.(charges) p.(addressToChargeId) n p.(mainAccountIndex)
    p.(autoSweep) p.(monitored) p.(saveDebounceTimer) p.(disk) p.(events)
    p.(webhookPosts) p.(ledgerSends).
Definition set_monitored (l : list string) (p : Processor) : Processor :=
  mkProcessor p.(charges) p.(addressToChargeId) p.(nextAccountIndex)
    p.(mainAccountIndex) p.(autoSweep) l p.(saveDebounceTimer) p.(disk)
    p.(events) p.(webhookPosts) p.(ledgerSends).
Definition set_persist (timer : bool) (d : option json) (p : Processor) : Processor :=
  mkProcessor p.(charges) p.(addressToChargeId) p.(nextAccountIndex)
    p.(mainAccountIndex) p.(autoSweep) p.(monitored) timer d p.(events)
    p.(webhookPosts) p.(ledgerSends).
Definition emit (name cid : string) (p : Processor) : Processor :=
  mkProcessor p.(charges) p.(addressToChargeId) p.(nextAccountIndex)
    p.(mainAccountIndex) p.(autoSweep) p.(monitored) p.(saveDebounceTimer)
    p.(disk) (p.(events) ++ [(name, cid)]) p.(webhookPosts) p.(ledgerSends).
Definition log_post (url : string) (payload : json) (p : Processor) : Processor :=
  mkProcessor p.(charges) p.(addressToChargeId) p.(nextAccountIndex)
    p.(mainAccountIndex) p.(autoSweep) p.(monitored) p.(saveDebounceTimer)
    p.(disk) p.(events) (p.(webhookPosts) ++ [(url, payload)]) p.(ledgerSends).
Definition log_send (to_ : string) (amount from_ : Z) (p : Processor) : Processor :=
  mkProcessor p.(charges) p.(addressToChargeId) p.(nextAccountIndex)
    p.(mainAccountIndex) p.(autoSweep) p.(monitored) p.(saveDebounceTimer)
    p.(disk) p.(events) p.(webhookPosts) (p.(ledgerSends) ++ [(to_, amount, from_)]).

(** Result of an async operation: resolved with a value, or rejected with an
    error; in both cases the state reached (JS mutations before a [throw]
    stay). *)
Inductive Outcome (A : Type) :=
| Ok (a : A) (p : Processor)
| Err (e : string) (p : Processor).
Arguments Ok {A}.
Arguments Err {A}.

Definition state_of {A} (o : Outcome A) : Processor :=
  match o with Ok _ p => p | Err _ p => p end.

(** Result of [fetch(webhookUrl, ...)] *)
Inductive FetchResult :=
| FetchOk                          (* response.ok *)
| FetchNotOk (httpStatus : Z)      (* a non-2xx response *)
| FetchFailed.                     (* fetch rejected: transport failure *)

(** The answers of the calls one [sweepCharge] makes *)
Record SweepEnv := mkSweepEnv {
  receivePendingOk : bool;           (* wallet.receivePending resolved *)
  balance : Z;                       (* wallet.getBalance(...).balance *)
  sendResult : option string;        (* wallet.send: its hash, or rejected *)
  webhookResponse : FetchResult
}.

(** [PendingBlock] of the Ledger Client *)
Record PendingBlock := mkPendingBlock {
  pb_hash : string;
  pb_amount : Z;
  pb_source : string
}.

(** [PaymentEvent] of the Event Monitor *)
Record PaymentEvent := mkPaymentEvent {
  pay_to : string;
  pay_from : string;
  pay_hash : string;
  pay_amount : Z;
  pay_amountNano : string;
  pay_timestamp : Date
}.

(** [CreateChargeOptions]; [timeoutMs] is a JS number: [Some None] is NaN *)
Record CreateChargeOptions := mkCreateChargeOptions {
  opt_amountNano : string;
  opt_timeoutMs : option (option Z);
  opt_metadata : option json;
  opt_webhookUrl : option string
}.

(** [ProcessorConfig] (the wallet is the Section's Ledger Client) *)
Record ProcessorConfig := mkProcessorConfig {
  cfg_mainAccountIndex : option Z;
  cfg_startingIndex : option Z;
  cfg_autoSweep : option bool
}.

Definition DEFAULT_TIMEOUT_MS : Z := 30 * 60 * 1000.

(** Decimal text of an integer ([x.toString()]) and [BigInt(text)] *)
Definition dec (z : Z) : string := NilZero.string_of_int (Z.to_int z).
Definition parse_dec (s : string) : option Z :=
  option_map Z.of_int (NilZero.int_of_string s).

Notation "'let*' x := a 'in' b" :=
  (match a with Some x => b | None => None end)
  (at level 200, x name, a at level 100, b at level 200).

Fixpoint map_option {A B} (f : A -> option B) (l : list A) : option (list B) :=
  match l with
  | [] => Some []
  | a :: l' => let* b := f a in let* bs := map_option f l' in Some (b :: bs)
  end.

Definition status_str (s : ChargeStatus) : string :=
  match s with
  | pending => "pending" | partial => "partial" | completed => "completed"
  | expired => "expired" | swept => "swept"
  end.

Definition parse_status (s : string) : option ChargeStatus :=
  if String.eqb s "pending" then Some pending
  else if String.eqb s "partial" then Some partial
  else if String.eqb s "completed" then Some completed
  else if String.eqb s "expired" then Some expired
  else if String.eqb s "swept" then Some swept
  else None.

Definition is_active (s : ChargeStatus) : bool :=
  match s with pending | partial => true | _ => false end.

(** [d < now] on a [Date]: false for an Invalid Date (NaN comparisons) *)
Definition date_lt (d : Date) (now : Z) : bool :=
  match d with Some t => t <? now | None => false end.

(** Fields of a parsed JSON object: [JSON.parse] keeps the last duplicate *)
Definition lookup (k : string) (fs : list (string * json)) : option json :=
  fold_left (fun acc kv => if String.eqb (fst kv) k then Some (snd kv) else acc) fs None.

(** JS truthiness of a property read from JSON ([None]: undefined) *)
Definition js_truthy (v : option json) : bool :=
  match v with
  | None | Some JNull => false
  | Some (JBool b) => b
  | Some (JNum n) => negb (n =? 0)
  | Some (JStr s) => negb (String.eqb s "")
  | Some (JArr _) | Some (JObj _) => true
  end.

Definition opt_field {A} (k : string) (f : A -> json) (o : option A)
    : list (string * json) :=
  match o with Some a => [(k, f a)] | None => [] end.

(** Typed reads of the fields of a loaded object: [None] when the value read
    is not of the field's declared type *)
Definition get_string (k : string) (fs : list (string * json)) : option string :=
  match lookup k fs with Some (JStr s) => Some s | _ => None end.
Definition get_num (k : string) (fs : list (string * json)) : option Z :=
  match lookup k fs with Some (JNum n) => Some n | _ => None end.
Definition get_raw (k : string) (fs : list (string * json)) : option Z :=
  let* s := get_string k fs in parse_dec s.
Definition get_opt_string (k : string) (fs : list (string * json))
    : option (option string) :=
  match lookup k fs with None => Some None | Some (JStr s) => Some (Some s) | _ => None end.
Definition get_opt_bool (k : string) (fs : list (string * json))
    : option (option bool) :=
  match lookup k fs with None => Some None | Some (JBool b) => Some (Some b) | _ => None end.

(** ** Sample instances of the library functions and sample data, to run
    the definitions on concrete inputs *)

Definition demo_deriveAccount (i : Z) : string := ("nano_" ++ dec i)%string.
Definition demo_rawToNano (z : Z) : string := dec z.
Definition demo_nanoToRaw (s : string) : Z :=
  match parse_dec s with Some z => z | None => 0 end.
Definition demo_toISOString (t : Z) : string := dec t.
Definition demo_date_parse (s : string) : Date := parse_dec s.

Definition demo_charge : Charge :=
  mkCharge "c1" "nano_1000" 1000 5 "5" 0 "0" pending [] (Some 0) (Some 1800000)
    None None None None None None.

Definition demo_processor : Processor :=
  mkProcessor [("c1", demo_charge)] [("nano_1000", "c1")] 1001 0 true ["nano_1000"] false
    None [] [] [].

Definition demo_empty_processor : Processor :=
  mkProcessor [] [] 1000 0 true [] false None [] [] [].

(** An expired charge that received nothing; its address already released *)
Definition demo_expired_charge : Charge :=
  set_status expired demo_charge.

Definition demo_expired_processor : Processor :=
  mkProcessor [("c1", demo_expired_charge)] [] 1001 0 true [] false None [] [] [].

Definition demo_swept_charge : Charge :=
  mkCharge "c1" "nano_1000" 1000 5 "5" 5 "5" swept [] (Some 0) (Some 1800000)
    (Some (Some 5)) (Some (Some 9)) (Some "h1") None None None.

Definition demo_swept_processor : Processor :=
  mkProcessor [("c1", demo_swept_charge)] [] 1001 0 true [] false None [] [] [].

Definition demo_hook_charge : Charge :=
  mkCharge "c2" "nano_1001" 1001 5 "5" 5 "5" completed [] (Some 0) (Some 1800000)
    (Some (Some 5)) None None (Some "https://shop.example/hook") None None.

Definition demo_hook_processor : Processor :=
  mkProcessor [("c2", demo_hook_charge)] [("nano_1001", "c2")] 1002 0 true ["nano_1001"] false
    None [] [] [].

Definition demo_env : SweepEnv := mkSweepEnv true 5 (Some "h1") FetchOk.
Definition demo_failing_env : SweepEnv := mkSweepEnv true 5 (Some "h1") (FetchNotOk 500).

Definition demo_payment : PaymentEvent :=
  mkPaymentEvent "nano_1000" "nano_payer" "b1" 3 "3" (Some 60).

Definition demo_options : CreateChargeOptions := mkCreateChargeOptions "5" None None None.

(** [timeoutMs] is NaN: [parseInt("abc") * 60 * 1000] in the CLI *)
Definition demo_nan_options : CreateChargeOptions :=
  mkCreateChargeOptions "5" (Some None) None None.

Definition demo_requests : list (string * Z * CreateChargeOptions) :=
  [("c1", 0, demo_options); ("c2", 1, demo_options); ("c3", 2, demo_options)].

Definition demo_config : ProcessorConfig := mkProcessorConfig None None None.

Definition demo_state : PersistedState := mkPersisted 1001 [demo_charge] "0".

(** A snapshot file holding one swept charge *)
Definition demo_swept_file : option json :=
  Some (JObj [("nextAccountIndex", JNum 1001);
              ("charges", JArr [JObj [("id", JStr "c1"); ("address", JStr "nano_1000");
                 ("accountIndex", JNum 1000); ("amountRaw", JStr "5"); ("amountNano", JStr "5");
                 ("receivedRaw", JStr "5"); ("receivedNano", JStr "5");
                 ("status", JStr "swept"); ("transactions", JArr []);
                 ("createdAt", JStr "0"); ("expiresAt", JStr "1800000");
                 ("completedAt", JStr "5"); ("sweptAt", JStr "9"); ("sweepTxHash", JStr "h1")]]);
              ("updatedAt", JStr "9")]).

(** A processor that does not sweep automatically *)
Definition demo_manual_processor : Processor :=
  mkProcessor [("c1", demo_charge)] [("nano_1000", "c1")] 1001 0 false ["nano_1000"] false
    None [] [] [].

(** A payment of the full amount *)
Definition demo_full_payment : PaymentEvent :=
  mkPaymentEvent "nano_1000" "nano_payer" "b1" 5 "5" (Some 60).

(** A partially paid charge *)
Definition demo_partial_charge : Charge :=
  mkCharge "c1" "nano_1000" 1000 5 "5" 3 "3" partial [] (Some 0) (Some 1800000)
    None None None None None None.

Definition demo_partial_processor : Processor :=
  mkProcessor [("c1", demo_partial_charge)] [("nano_1000", "c1")] 1001 0 true ["nano_1000"]
    false None [] [] [].

(** A sweep whose send is rejected *)
Definition demo_send_failed_env : SweepEnv := mkSweepEnv true 5 None FetchOk.

Section Processor.

(** The Ledger Client's key derivation ([BerryPayWallet.deriveAccount]; also
    [getAddress]) *)
Variable deriveAccount : Z -> string.
(** [BerryPayWallet.rawToNano] / [nanoToRaw] ([tools.convert]) *)
Variable rawToNano : Z -> string.
Variable nanoToRaw : string -> Z.
(** [Date.prototype.toISOString] on a valid time value, and [Date.parse] *)
Variable toISOString : Z -> string.
Variable date_parse : string -> Date.

(** *** Persistence *)

(** [JSON.stringify] of a [Date] (its [toJSON]): null for an Invalid Date *)
Definition date_json (d : Date) : json :=
  match d with Some t => JStr (toISOString t) | None => JNull end.

(** [new Date(v)] on a property read from JSON ([None]: undefined) *)
Definition new_Date (v : option json) : Date :=
  match v with
  | Some (JStr s) => date_parse s
  | Some (JNum n) => TimeClip (Some n)
  | Some JNull => Some 0
  | Some (JBool b) => Some (if b then 1 else 0)
  | _ => None
  end.

Definition tx_json (t : Tx.t) : json :=
  JObj [("hash", JStr t.(Tx.hash)); ("from", JStr t.(Tx.from));
        ("amountRaw", JStr (dec t.(Tx.amountRaw)));
        ("amountNano", JStr t.(Tx.amountNano));
        ("timestamp", date_json t.(Tx.timestamp))].

(** [JSON.stringify] of a [Charge]: undefined properties are omitted *)
Definition charge_json (c : Charge) : json :=
  JObj ([("id", JStr c.(id)); ("address", JStr c.(address));
         ("accountIndex", JNum c.(accountIndex));
         ("amountRaw", JStr (dec c.(amountRaw))); ("amountNano", JStr c.(amountNano));
         ("receivedRaw", JStr (dec c.(receivedRaw)));
         ("receivedNano", JStr c.(receivedNano));
         ("status", JStr (status_str c.(status)));
         ("transactions", JArr (map tx_json c.(transactions)));
         ("createdAt", date_json c.(createdAt)); ("expiresAt", date_json c.(expiresAt))]
        ++ opt_field "completedAt" date_json c.(completedAt)
        ++ opt_field "sweptAt" date_json c.(sweptAt)
        ++ opt_field "sweepTxHash" JStr c.(sweepTxHash)
        ++ opt_field "webhookUrl" JStr c.(webhookUrl)
        ++ opt_field "webhookSent" JBool c.(webhookSent)
        ++ opt_field "metadata" (fun m => m) c.(metadata)).

Definition state_json (st : PersistedState) : json :=
  JObj [("nextAccountIndex", JNum st.(ps_nextAccountIndex));
        ("charges", JArr (map charge_json st.(ps_charges)));
        ("updatedAt", JStr st.(ps_updatedAt))].

(** [{ ...t, timestamp: new Date(t.timestamp) }] *)
Definition load_tx (v : json) : option Tx.t :=
  match v with
  | JObj fs =>
      let* h := get_string "hash" fs in
      let* f := get_string "from" fs in
      let* a := get_raw "amountRaw" fs in
      let* n := get_string "amountNano" fs in
      Some (Tx.mk h f a n (new_Date (lookup "timestamp" fs)))
  | _ => None
  end.

(** The charge mapping of [loadPersistedState]: [createdAt]/[expiresAt]
    through [new Date], [completedAt]/[sweptAt] through [new Date] when truthy,
    the transactions through [load_tx], the rest kept as read *)
Definition load_charge (v : json) : option Charge :=
  match v with
  | JObj fs =>
      let* i := get_string "id" fs in
      let* a := get_string "address" fs in
      let* ai := get_num "accountIndex" fs in
      let* ar := get_raw "amountRaw" fs in
      let* an := get_string "amountNano" fs in
      let* rr := get_raw "receivedRaw" fs in
      let* rn := get_string "receivedNano" fs in
      let* st := (let* s := get_string "status" fs in parse_status s) in
      let* txs := (match lookup "transactions" fs with
                   | Some (JArr l) => map_option load_tx l
                   | _ => None end) in
      let ca := lookup "completedAt" fs in
      let sa := lookup "sweptAt" fs in
      let* sh := get_opt_string "sweepTxHash" fs in
      let* wu := get_opt_string "webhookUrl" fs in
      let* ws := get_opt_bool "webhookSent" fs in
      Some (mkCharge i a ai ar an rr rn st txs
              (new_Date (lookup "createdAt" fs)) (new_Date (lookup "expiresAt" fs))
              (if js_truthy ca then Some (new_Date ca) else None)
              (if js_truthy sa then Some (new_Date sa) else None)
              sh wu ws (lookup "metadata" fs))
  | _ => None
  end.

(** [loadPersistedState]: the file content ([None]: no file) *)
Definition loadPersistedState (file : option json) : option PersistedState :=
  match file with
  | Some (JObj fs) =>
      let* n := get_num "nextAccountIndex" fs in
      let* cs := (match lookup "charges" fs with
                  | Some (JArr l) => map_option load_charge l
                  | _ => None end) in
      let u := match get_string "updatedAt" fs with Some u => u | None => "" end in
      Some (mkPersisted n cs u)
  | _ => None
  end.

(** [savePersistedState]: the new file content *)
Definition savePersistedState (st : PersistedState) : option json :=
  Some (state_json st).

(** [persistStateNow]: clear the debounce timer and write the snapshot *)
Definition persistStateNow (now : Z) (p : Processor) : Processor :=
  set_persist false
    (savePersistedState
       (mkPersisted p.(nextAccountIndex) (map snd p.(charges)) (toISOString now))) p.

(** [persistState]: (re)arm the 500 ms debounce timer *)
Definition persistState (p : Processor) : Processor :=
  set_persist true p.(disk) p.

(** The debounce timer firing *)
Definition flushTimer (now : Z) (p : Processor) : Processor :=
  if p.(saveDebounceTimer) then persistStateNow now p else p.

(** The loop of the constructor over the persisted charges *)
Definition load_maps (cs : list Charge)
    : list (string * Charge) * list (string * string) :=
  fold_left (fun acc c => (map_set c.(id) c (fst acc), map_set c.(address) c.(id) (snd acc)))
    cs ([], []).

(** [new PaymentProcessor(config)] reading the persist file [file] *)
Definition construct (cfg : ProcessorConfig) (file : option json) : Processor :=
  let main := match cfg.(cfg_mainAccountIndex) with Some m => m | None => 0 end in
  let auto := match cfg.(cfg_autoSweep) with Some b => b | None => true end in
  match loadPersistedState file with
  | Some st =>
      let maps := load_maps st.(ps_charges) in
      mkProcessor (fst maps) (snd maps) st.(ps_nextAccountIndex) main auto [] false
        file [("state:loaded", "")] [] []
  | None =>
      let start := match cfg.(cfg_startingIndex) with Some s => s | None => 1000 end in
      mkProcessor [] [] start main auto [] false file [] [] []
  end.

(** *** Operations *)

(** [getChargeByAddress], with the key the charge is stored under *)
Definition chargeByAddress (addr : string) (p : Processor) : option (string * Charge) :=
  match map_get addr p.(addressToChargeId) with
  | Some cid =>
      if String.eqb cid "" then None
      else match map_get cid p.(charges) with
           | Some c => Some (cid, c)
           | None => None
           end
  | None => None
  end.

Definition getChargeByAddress (addr : string) (p : Processor) : option Charge :=
  option_map snd (chargeByAddress addr p).

(** [createCharge(options)] with [cid] the fresh id of [generateChargeId] and
    [now] the value of [Date.now()] *)
Definition createCharge (cid : string) (now : Z) (o : CreateChargeOptions)
    (p : Processor) : Charge * Processor :=
  let idx := p.(nextAccountIndex) in
  let p1 := set_next (idx + 1) p in
  let addr := deriveAccount idx in
  let amt := nanoToRaw o.(opt_amountNano) in
  let timeout := match o.(opt_timeoutMs) with Some t => t | None => Some DEFAULT_TIMEOUT_MS end in
  let c := mkCharge cid addr idx amt o.(opt_amountNano) 0 "0" pending []
             (Some now) (TimeClip (option_map (Z.add now) timeout))
             None None None o.(opt_webhookUrl) None o.(opt_metadata) in
  let p2 := set_charges (map_set cid c p1.(charges)) p1 in
  let p3 := set_addr (map_set addr cid p2.(addressToChargeId)) p2 in
  let p4 := set_monitored (set_add addr p3.(monitored)) p3 in
  (c, emit "charge:created" cid (persistState p4)).

(** [completedAt?.toISOString()]: [None] when it throws (Invalid Date) *)
Definition iso_field (k : string) (d : option Date) : option (list (string * json)) :=
  match d with
  | None => Some []
  | Some (Some t) => Some [(k, JStr (toISOString t))]
  | Some None => None
  end.

(** The payload object of [callWebhook] *)
Definition webhook_payload (c : Charge) (sweepHash : string) (amt : Z) (now : Z)
    : option json :=
  let* ca := iso_field "completedAt" c.(completedAt) in
  let* sa := iso_field "sweptAt" c.(sweptAt) in
  Some (JObj [("event", JStr "charge.completed");
              ("charge", JObj ([("id", JStr c.(id)); ("address", JStr c.(address));
                   ("amountNano", JStr c.(amountNano));
                   ("amountRaw", JStr (dec c.(amountRaw)));
                   ("receivedNano", JStr c.(receivedNano));
                   ("receivedRaw", JStr (dec c.(receivedRaw)));
                   ("status", JStr (status_str c.(status)));
                   ("sweepTxHash", JStr sweepHash);
                   ("sweptAmountNano", JStr (rawToNano amt));
                   ("sweptAmountRaw", JStr (dec amt))]
                   ++ ca ++ sa ++ opt_field "metadata" (fun m => m) c.(metadata)));
              ("timestamp", JStr (toISOString now))]).

(** [callWebhook(charge, sweepHash, amountRaw)]; [cid] is the key of the
    charge object, [resp] the outcome of the single [fetch] *)
Definition callWebhook (cid : string) (c : Charge) (sweepHash : string) (amt : Z)
    (now : Z) (resp : FetchResult) (p : Processor) : Outcome unit :=
  if negb (truthy_str c.(webhookUrl)) then Ok tt p else
  let url := match c.(webhookUrl) with Some u => u | None => "" end in
  match webhook_payload c sweepHash amt now with
  | None => Err "RangeError: Invalid time value" p
  | Some payload =>
      let p1 := log_post url payload p in
      match resp with
      | FetchOk =>
          let p2 := set_charges (map_set cid (mark_webhook_sent c) p1.(charges)) p1 in
          Ok tt (emit "webhook:sent" c.(id) (persistStateNow now p2))
      | FetchNotOk _ => Ok tt (emit "webhook:failed" c.(id) p1)
      | FetchFailed => Ok tt (emit "webhook:error" c.(id) p1)
      end
  end.

(** [sweepCharge(chargeId)]: [Ok None] is the "nothing to sweep" [null] *)
Definition sweepCharge (cid : string) (now : Z) (env : SweepEnv) (p : Processor)
    : Outcome (option (string * Z)) :=
  match map_get cid p.(charges) with
  | None => Err "Charge not found" p
  | Some c =>
      if status_eqb c.(status) swept then Ok None p else
      if negb env.(receivePendingOk) then Err "receivePending failed" (emit "error" cid p) else
      let bal := env.(balance) in
      if bal =? 0 then Ok None p else
      let mainAddress := deriveAccount p.(mainAccountIndex) in
      let p1 := log_send mainAddress bal c.(accountIndex) p in
      match env.(sendResult) with
      | None => Err "send failed" (emit "error" cid p1)
      | Some h =>
          let c1 := mark_swept now h c in
          let p2 := set_charges (map_set cid c1 p1.(charges)) p1 in
          let p3 := set_monitored (set_remove c.(address) p2.(monitored))
                      (set_addr (map_delete c.(address) p2.(addressToChargeId)) p2) in
          let p4 := emit "charge:swept" cid (persistStateNow now p3) in
          if truthy_str c1.(webhookUrl) && negb (truthy_bool c1.(webhookSent)) then
            match callWebhook cid c1 h bal now env.(webhookResponse) p4 with
            | Ok _ p5 => Ok (Some (h, bal)) p5
            | Err e p5 => Err e (emit "error" cid p5)
            end
          else Ok (Some (h, bal)) p4
      end
  end.

(** [handlePayment(payment)]: the state after the returned promise settles *)
Definition handlePayment (now : Z) (env : SweepEnv) (pay : PaymentEvent) (p : Processor)
    : Processor :=
  match chargeByAddress pay.(pay_to) p with
  | None => p
  | Some (cid, c) =>
      match c.(status) with
      | completed | expired | swept => p
      | _ =>
          let tx := Tx.mk pay.(pay_hash) pay.(pay_from) pay.(pay_amount)
                      pay.(pay_amountNano) pay.(pay_timestamp) in
          let c1 := push_payment rawToNano tx c in
          let p1 := emit "charge:payment" cid (set_charges (map_set cid c1 p.(charges)) p) in
          if c1.(amountRaw) <=? c1.(receivedRaw) then
            let c2 := mark_completed now c1 in
            let p2 := emit "charge:completed" cid
                        (persistStateNow now (set_charges (map_set cid c2 p1.(charges)) p1)) in
            if p2.(autoSweep) then state_of (sweepCharge c2.(id) now env p2) else p2
          else
            let c2 := set_status partial c1 in
            emit "charge:partial" cid
              (persistState (set_charges (map_set cid c2 p1.(charges)) p1))
      end
  end.

(** The inner loop of [checkMissedPayments] over the pending blocks of one
    charge; each block comes with the outcome of its [wallet.receive] *)
Fixpoint recover_blocks (now : Z) (cid : string) (pend : list (PendingBlock * bool))
    (c : Charge) (p : Processor) : Charge * Processor :=
  match pend with
  | [] => (c, p)
  | (pb, ok) :: rest =>
      if ok then
        let tx := Tx.mk pb.(pb_hash) pb.(pb_source) pb.(pb_amount)
                    (rawToNano pb.(pb_amount)) (Some now) in
        let c1 := push_payment rawToNano tx c in
        recover_blocks now cid rest c1
          (emit "charge:payment" cid (set_charges (map_set cid c1 p.(charges)) p))
      else recover_blocks now cid rest c (emit "error" cid p)
  end.

(** One iteration of [checkMissedPayments] *)
Definition recover_charge (now : Z) (cid : string) (pend : list (PendingBlock * bool))
    (env : SweepEnv) (p : Processor) : Processor :=
  match map_get cid p.(charges) with
  | None => p
  | Some c =>
      match pend with
      | [] => p
      | _ :: _ =>
          let r := recover_blocks now cid pend c (emit "recovery:found" cid p) in
          let c1 := fst r in
          let p1 := snd r in
          if c1.(amountRaw) <=? c1.(receivedRaw) then
            let c2 := mark_completed now c1 in
            let p2 := emit "charge:completed" cid
                        (persistStateNow now (set_charges (map_set cid c2 p1.(charges)) p1)) in
            if p2.(autoSweep) then
              match sweepCharge c2.(id) now env p2 with
              | Ok _ p3 => p3
              | Err _ p3 => emit "error" cid p3
              end
            else p2
          else if 0 <? c1.(receivedRaw) then
            persistState (set_charges (map_set cid (set_status partial c1) p1.(charges)) p1)
          else p1
      end
  end.

(** [listActiveCharges()], as the keys of the charges *)
Definition active_ids (p : Processor) : list string :=
  map fst (filter (fun kc => is_active (snd kc).(status)) p.(charges)).

(** The ledger's answers for the recovery of each charge: the pending blocks
    (each with the outcome of its receive) and the answers of the sweep *)
Definition RecoveryEnv := string -> list (PendingBlock * bool) * SweepEnv.

(** [checkMissedPayments()] *)
Definition checkMissedPayments (now : Z) (renv : RecoveryEnv) (p : Processor) : Processor :=
  fold_left (fun p cid => recover_charge now cid (fst (renv cid)) (snd (renv cid)) p)
    (active_ids p) p.

(** One iteration of [checkExpiredCharges]: (state, stateChanged, charges
    whose sweep was started) *)
Definition expire_one (now : Z) (acc : Processor * bool * list string) (cid : string)
    : Processor * bool * list string :=
  let '(p, changed, spawned) := acc in
  match map_get cid p.(charges) with
  | None => acc
  | Some c =>
      if is_active c.(status) && date_lt c.(expiresAt) now then
        let p1 := emit "charge:expired" cid
                    (set_charges (map_set cid (set_status expired c) p.(charges)) p) in
        if (0 <? c.(receivedRaw)) && p1.(autoSweep) then (p1, true, (spawned ++ [c.(id)])%list)
        else (set_monitored (set_remove c.(address) p1.(monitored))
                (set_addr (map_delete c.(address) p1.(addressToChargeId)) p1),
              true, spawned)
      else acc
  end.

(** [checkExpiredCharges()]; the sweeps it starts continue as later
    [sweepCharge] steps *)
Definition checkExpiredCharges (now : Z) (p : Processor) : Processor * list string :=
  let '(p1, changed, spawned) :=
    fold_left (expire_one now) (map fst p.(charges)) (p, false, []) in
  (if changed then persistState p1 else p1, spawned).

(** [deleteCharge(chargeId)] *)
Definition deleteCharge (cid : string) (p : Processor) : Outcome bool :=
  match map_get cid p.(charges) with
  | None => Ok false p
  | Some c =>
      if negb (status_eqb c.(status) swept) &&
         negb (status_eqb c.(status) expired && (c.(receivedRaw) =? 0)) then
        Err "Cannot delete charge with pending funds. Sweep first." p
      else
        let p1 := set_addr (map_delete c.(address) p.(addressToChargeId)) p in
        let p2 := set_charges (map_delete cid p1.(charges)) p1 in
        let p3 := set_monitored (set_remove c.(address) p2.(monitored)) p2 in
        Ok true (emit "charge:deleted" cid (persistState p3))
  end.

(** [cleanupSweptCharges()] *)
Definition cleanupSweptCharges (p : Processor) : Z * Processor :=
  let kept := filter (fun kc => negb (status_eqb (snd kc).(status) swept)) p.(charges) in
  let count := Z.of_nat (length p.(charges) - length kept) in
  let p1 := set_charges kept p in
  (count, if 0 <? count then persistState p1 else p1).

(** [checkChargeStatus(chargeId)]: (isPaid, remainingRaw), given the answers
    of [getPendingBlocks] and [getBalance] *)
Definition checkChargeStatus (cid : string) (pend : list PendingBlock) (bal : Z)
    (p : Processor) : Outcome (bool * Z) :=
  match map_get cid p.(charges) with
  | None => Err "Charge not found" p
  | Some c =>
      let total := bal + fold_left (fun s pb => s + pb.(pb_amount)) pend 0 in
      let required := c.(amountRaw) in
      Ok (required <=? total, if total <? required then required - total else 0) p
  end.

(** The operations of the processor, one at a time; [generateChargeId]
    (96 random bits) is taken to return an id not already in use *)
Inductive step : Processor -> Processor -> Prop :=
| step_create cid now o p :
    map_get cid p.(charges) = None -> step p (snd (createCharge cid now o p))
| step_payment now env pay p : step p (handlePayment now env pay p)
| step_sweep cid now env p : step p (state_of (sweepCharge cid now env p))
| step_expire now p : step p (fst (checkExpiredCharges now p))
| step_recover now renv p : step p (checkMissedPayments now renv p)
| step_delete cid p : step p (state_of (deleteCharge cid p))
| step_cleanup p : step p (snd (cleanupSweptCharges p))
| step_flush now p : step p (flushTimer now p).

(** *** Properties of states *)

(** The received total against the recorded transactions *)
Definition sum_tx (l : list Tx.t) : Z :=
  fold_right (fun t s => t.(Tx.amountRaw) + s) 0 l.

Definition received_consistent (c : Charge) : Prop :=
  c.(receivedRaw) = sum_tx c.(transactions).

(** Every charge of the store *)
Definition all_consistent (p : Processor) : Prop :=
  forall k c, map_get k p.(charges) = Some c -> received_consistent c.

(** The status order the processor implements: every status may stay; a
    [pending] charge may become anything, a [partial] one anything but
    [pending]; [completed] and [expired] may only become [swept]; [swept]
    stays. *)
Definition advances (s s' : ChargeStatus) : bool :=
  match s, s' with
  | pending, _ => true
  | partial, (partial | completed | expired | swept) => true
  | completed, (completed | swept) => true
  | expired, (expired | swept) => true
  | swept, swept => true
  | _, _ => false
  end.

(** The state machine of the spec (section 4.2), closed under sequences of
    its transitions; [expired] may only become [swept] when funds were
    received *)
Definition spec_allows (c c' : Charge) : bool :=
  match c.(status), c'.(status) with
  | pending, _ => true
  | partial, (partial | completed | expired | swept) => true
  | completed, (completed | swept) => true
  | expired, expired => true
  | expired, swept => 0 <? c.(receivedRaw)
  | swept, swept => true
  | _, _ => false
  end.

(** The state changes of the charges from [p] to [p'] *)
Definition statuses_advance (p p' : Processor) : Prop :=
  forall k c c', map_get k p.(charges) = Some c -> map_get k p'.(charges) = Some c' ->
    advances c.(status) c'.(status) = true.

(** [createCharge] called once per request (id, time, options) *)
Fixpoint createCharges (reqs : list (string * Z * CreateChargeOptions)) (p : Processor)
    : list Charge * Processor :=
  match reqs with
  | [] => ([], p)
  | (cid, now, o) :: rest =>
      let r := createCharge cid now o p in
      let r' := createCharges rest (snd r) in
      (fst r :: fst r', snd r')
  end.

(** All dates of a charge are valid time values *)
Definition opt_date_valid (d : option Date) : bool :=
  match d with Some d' => valid_date d' | None => true end.
Definition dates_valid (c : Charge) : bool :=
  valid_date c.(createdAt) && valid_date c.(expiresAt) &&
  opt_date_valid c.(completedAt) && opt_date_valid c.(sweptAt) &&
  forallb (fun t => valid_date t.(Tx.timestamp)) c.(transactions).

(** The transactions the recovery of one charge records: one per pending
    block whose [receive] resolved *)
Definition recovered_txs (now : Z) (pend : list (PendingBlock * bool)) : list Tx.t :=
  map (fun pbo => let pb := fst pbo in
         Tx.mk pb.(pb_hash) pb.(pb_source) pb.(pb_amount) (rawToNano pb.(pb_amount)) (Some now))
      (filter snd pend).

(** Every entry of a charge map is consistent *)
Definition consistent_map (m : list (string * Charge)) : Prop :=
  forall kv, In kv m -> received_consistent (snd kv).

(** The keys of the charge map: each key once (a JS [Map]), each charge
    stored under its own id *)
Definition keys_ok (m : list (string * Charge)) : Prop :=
  NoDup (map fst m) /\ Forall (fun kv => (snd kv).(id) = fst kv) m.

(** Every charge of [m] is still in [m'], with a status reached along
    [advances] *)
Definition adv_map (m m' : list (string * Charge)) : Prop :=
  forall k c, map_get k m = Some c ->
    exists c', map_get k m' = Some c' /\ advances c.(status) c'.(status) = true.

(** The operations that keep every charge record: payment application,
    expiry check, sweep and recovery *)
Inductive flow_step : Processor -> Processor -> Prop :=
| flow_payment now env pay p : flow_step p (handlePayment now env pay p)
| flow_sweep cid now env p : flow_step p (state_of (sweepCharge cid now env p))
| flow_expire now p : flow_step p (fst (checkExpiredCharges now p))
| flow_recover now renv p : flow_step p (checkMissedPayments now renv p).

(** *** Queries, import and export, start-up *)

(** [getCharge(id)] *)
Definition getCharge (cid : string) (p : Processor) : option Charge :=
  map_get cid p.(charges).

(** [listCharges(status?)]; [st] is the string the caller passes (the CLI
    forwards the text of [--status] as typed); [if (status)] is its JS
    truthiness *)
Definition listCharges (st : option string) (p : Processor) : list Charge :=
  let cs := map snd p.(charges) in
  match st with
  | Some s =>
      if String.eqb s "" then cs
      else filter (fun c => String.eqb (status_str c.(status)) s) cs
  | None => cs
  end.

(** [listActiveCharges()] *)
Definition listActiveCharges (p : Processor) : list Charge :=
  filter (fun c => status_eqb c.(status) pending || status_eqb c.(status) partial)
    (listCharges None p).

(** [exportCharges()] *)
Definition exportCharges (p : Processor) : list Charge :=
  map snd p.(charges).

(** One iteration of [importCharges] *)
Definition import_one (p : Processor) (c : Charge) : Processor :=
  let p1 := set_charges (map_set c.(id) c p.(charges)) p in
  let p2 := set_addr (map_set c.(address) c.(id) p1.(addressToChargeId)) p1 in
  if status_eqb c.(status) pending || status_eqb c.(status) partial
  then set_monitored (set_add c.(address) p2.(monitored)) p2
  else p2.

(** [importCharges(charges)] *)
Definition importCharges (cs : list Charge) (p : Processor) : Processor :=
  fold_left import_one cs p.

(** [start()]: [running] is [isRunning], [monitorOk] whether
    [monitor.start()] resolved (the WebSocket connection itself and the
    10 s expiry interval are outside the state); the new [isRunning] and
    the state.  The "started" event carries a count, not a charge id. *)
Definition start (running : bool) (now : Z) (renv : RecoveryEnv) (monitorOk : bool)
    (p : Processor) : bool * Processor :=
  if running then (true, p) else
  let active := listActiveCharges p in
  let p1 := set_monitored
              (fold_left (fun l c => set_add c.(address) l) active p.(monitored)) p in
  let p2 := checkMissedPayments now renv p1 in
  (true, if monitorOk then emit "started" "" p2 else p2).

(** [generateChargeId()]: [bytes] are those of [crypto.randomBytes(12)];
    [Buffer.toString("hex")] writes two lowercase hex digits per byte *)
Definition hex_digit (n : nat) : Ascii.ascii :=
  if Nat.ltb n 10 then Ascii.ascii_of_nat (48 + n)%nat
  else Ascii.ascii_of_nat (87 + n)%nat.

Definition byte_hex (b : Byte.byte) : string :=
  String (hex_digit (Nat.div (Byte.to_nat b) 16))
    (String (hex_digit (Nat.modulo (Byte.to_nat b) 16)) EmptyString).

Fixpoint hex_string (bs : list Byte.byte) : string :=
  match bs with
  | [] => EmptyString
  | b :: r => (byte_hex b ++ hex_string r)%string
  end.

Definition generateChargeId (bytes : list Byte.byte) : string :=
  ("chg_" ++ hex_string bytes)%string.

(** Reading hex text back into bytes *)
Definition hex_value (a : Ascii.ascii) : option nat :=
  let n := Ascii.nat_of_ascii a in
  if Nat.leb 48 n && Nat.leb n 57 then Some (n - 48)%nat
  else if Nat.leb 97 n && Nat.leb n 102 then Some (n - 87)%nat
  else None.

Definition unhex_byte (a b : Ascii.ascii) : option Byte.byte :=
  match hex_value a, hex_value b with
  | Some x, Some y => Byte.of_nat (16 * x + y)%nat
  | _, _ => None
  end.

Fixpoint unhex (s : string) : option (list Byte.byte) :=
  match s with
  | EmptyString => Some []
  | String a (String b r) =>
      let* x := unhex_byte a b in
      let* l := unhex r in
      Some (x :: l)
  | String _ EmptyString => None
  end.

(** *** The Ledger Client ([src/wallet.ts]) *)

(** [deriveAccount(index)] with its cache [accounts] (index, address);
    [derive] is [nanoWallet.accounts(seed, index, index)[0].address] *)
Definition wallet_deriveAccount (derive : Z -> string) (index : Z)
    (cache : list (Z * string)) : string * list (Z * string) :=
  match find (fun e => Z.eqb (fst e) index) cache with
  | Some e => (snd e, cache)
  | None => (derive index, cache ++ [(index, derive index)])
  end.

(** The [blocks] field of the answer of the [pending] RPC *)
Inductive BlockInfo :=
| InfoAmount (amount : Z)                     (* old format: the amount *)
| InfoFull (amount : Z) (source : string).    (* { amount, source } *)

Inductive BlocksField :=
| BlocksFalsy                                 (* missing, null or "" *)
| BlocksString (s : string)
| BlocksObject (entries : list (string * BlockInfo)).  (* [Object.entries] *)

(** [getPendingBlocks(accountIndex)]: [r] is [None] when [rpcCall] throws *)
Definition getPendingBlocks (r : option BlocksField) : list PendingBlock :=
  match r with
  | Some (BlocksObject es) =>
      map (fun e => match snd e with
                    | InfoAmount a => mkPendingBlock (fst e) a ""
                    | InfoFull a s => mkPendingBlock (fst e) a s
                    end) es
  | _ => []
  end.

(** The loop of [receivePending]; [recv] is the outcome of
    [wallet.receive] for a block (the new block's hash, or the message of
    its error).  The blocks whose receive was started, and the results or
    the message of the error rethrown. *)
Fixpoint receive_loop (recv : PendingBlock -> sum string string) (pend : list PendingBlock)
    : list PendingBlock * sum (list (string * Z)) string :=
  match pend with
  | [] => ([], inl [])
  | pb :: rest =>
      match recv pb with
      | inr msg => ([pb], inr ("Failed to receive " ++ pb.(pb_hash) ++ ": " ++ msg)%string)
      | inl h =>
          let r := receive_loop recv rest in
          (pb :: fst r,
           match snd r with
           | inl rs => inl ((h, pb.(pb_amount)) :: rs)
           | inr e => inr e
           end)
      end
  end.

(** [receivePending(accountIndex)]; when no block is pending it reads
    [getBalance] and logs; [check] is [Some msg] when the [BigInt] of the
    [pending] field it reads throws (the field missing or not a number) *)
Definition receivePending (r : option BlocksField) (check : option string)
    (recv : PendingBlock -> sum string string)
    : list PendingBlock * sum (list (string * Z)) string :=
  let pend := getPendingBlocks r in
  match pend, check with
  | [], Some e => ([], inr e)
  | _, _ => receive_loop recv pend
  end.


(** The change [checkExpiredCharges] makes to one stored charge *)
Definition expire_at (now : Z) (c : Charge) : Charge :=
  if is_active c.(status) && date_lt c.(expiresAt) now then set_status expired c else c.

(** ** Lemmas on maps *)

Lemma map_get_set {V} (k k' : string) (v : V) (m : list (string * V)) :
  map_get k (map_set k' v m) = if String.eqb k k' then Some v else map_get k m.
Proof.
  induction m as [|[k1 v1] m IH]; simpl.
  - destruct (String.eqb k k'); reflexivity.
  - destruct (String.eqb k' k1) eqn:E1; simpl.
    + apply String.eqb_eq in E1; subst. destruct (String.eqb k k1); reflexivity.
    + destruct (String.eqb k k1) eqn:E2; [| exact IH].
      apply String.eqb_eq in E2; subst. rewrite String.eqb_sym, E1. reflexivity.
Qed.

Lemma map_get_set_same {V} (k : string) (v : V) m : map_get k (map_set k v m) = Some v.
Proof. rewrite map_get_set, String.eqb_refl. reflexivity. Qed.

Lemma map_get_delete {V} (k k' : string) (m : list (string * V)) :
  map_get k (map_delete k' m) = if String.eqb k k' then None else map_get k m.
Proof.
  unfold map_delete. induction m as [|[k1 v1] m IH]; simpl.
  - destruct (String.eqb k k'); reflexivity.
  - destruct (String.eqb k1 k') eqn:E1; simpl.
    + apply String.eqb_eq in E1; subst. rewrite IH.
      destruct (String.eqb k k'); reflexivity.
    + rewrite IH. destruct (String.eqb k k1) eqn:E2; [| reflexivity].
      apply String.eqb_eq in E2; subst. rewrite E1. reflexivity.
Qed.

Lemma not_In_set_remove (a : string) (l : list string) : ~ In a (set_remove a l).
Proof.
  unfold set_remove. intros H. apply filter_In in H as [_ H].
  rewrite String.eqb_refl in H. discriminate.
Qed.

Lemma status_eqb_true (a b : ChargeStatus) : status_eqb a b = true <-> a = b.
Proof. unfold status_eqb. destruct (ChargeStatus_eq_dec a b); split; congruence. Qed.

Lemma advances_refl (s : ChargeStatus) : advances s s = true.
Proof. destruct s; reflexivity. Qed.

Lemma advances_trans (a b c : ChargeStatus) :
  advances a b = true -> advances b c = true -> advances a c = true.
Proof. destruct a, b, c; simpl; congruence. Qed.

(** ** Lookup failures and the guards of [sweepCharge] and [deleteCharge] *)

(** C10: for an id with no charge, [deleteCharge] returns [false] and leaves
    the whole state (charge map, address index, persisted file and debounce
    timer) unchanged, while [sweepCharge] and [checkChargeStatus] reject with
    "Charge not found". *)
Theorem deleteCharge_unknown_id (cid : string) (p : Processor) (now : Z)
    (env : SweepEnv) (pend : list PendingBlock) (bal : Z) :
  map_get cid p.(charges) = None ->
  deleteCharge cid p = Ok false p /\
  sweepCharge cid now env p = Err "Charge not found" p /\
  checkChargeStatus cid pend bal p = Err "Charge not found" p.
Proof.
  intros H. unfold deleteCharge, sweepCharge, checkChargeStatus.
  rewrite H. repeat split.
Qed.

(** C5: [sweepCharge] rejects for an id with no charge; for a [swept] charge
    it returns "nothing to sweep" ([null]) with the state unchanged; when the
    on-chain balance read after [receivePending] is 0 it returns "nothing to
    sweep" with the state, so the charge's status and record, unchanged. *)
Theorem sweepCharge_nothing_to_sweep (cid : string) (now : Z) (env : SweepEnv)
    (p : Processor) :
  (map_get cid p.(charges) = None -> exists e, sweepCharge cid now env p = Err e p) /\
  (forall c, map_get cid p.(charges) = Some c -> c.(status) = swept ->
     sweepCharge cid now env p = Ok None p) /\
  (forall c, map_get cid p.(charges) = Some c ->
     env.(receivePendingOk) = true -> env.(balance) = 0 ->
     sweepCharge cid now env p = Ok None p).
Proof.
  unfold sweepCharge. repeat split.
  - intros H. rewrite H. eexists. reflexivity.
  - intros c H Hs. rewrite H, Hs. reflexivity.
  - intros c H Hr Hb. rewrite H, Hr, Hb. simpl.
    destruct (status_eqb (status c) swept); reflexivity.
Qed.

(** C7: [deleteCharge] on an existing charge succeeds exactly when it is
    [swept], or [expired] with nothing received: the charge record, its
    address registration and its monitored address are then gone; for any
    other charge it rejects and leaves the state unchanged. *)
Theorem deleteCharge_only_terminal (cid : string) (p : Processor) (c : Charge) :
  map_get cid p.(charges) = Some c ->
  ((c.(status) = swept \/ (c.(status) = expired /\ c.(receivedRaw) = 0)) ->
     exists p', deleteCharge cid p = Ok true p' /\
       map_get cid p'.(charges) = None /\
       map_get c.(address) p'.(addressToChargeId) = None /\
       ~ In c.(address) p'.(monitored) /\
       (forall k, k <> cid -> map_get k p'.(charges) = map_get k p.(charges))) /\
  (~ (c.(status) = swept \/ (c.(status) = expired /\ c.(receivedRaw) = 0)) ->
     deleteCharge cid p = Err "Cannot delete charge with pending funds. Sweep first." p).
Proof.
  intros H. unfold deleteCharge. rewrite H. split.
  - intros Hok.
    assert (Hg : negb (status_eqb (status c) swept) &&
                 negb (status_eqb (status c) expired && (receivedRaw c =? 0)) = false).
    { destruct Hok as [Hs | [Hs Hr]]; rewrite Hs; [reflexivity|].
      rewrite Hr. reflexivity. }
    rewrite Hg. eexists. split; [reflexivity|]. simpl.
    rewrite !map_get_delete, !String.eqb_refl.
    repeat split; [apply not_In_set_remove|].
    intros k Hk. apply String.eqb_neq in Hk. rewrite map_get_delete, Hk. reflexivity.
  - intros Hno.
    destruct (status_eqb (status c) swept) eqn:E1.
    { apply status_eqb_true in E1. exfalso. apply Hno. left. exact E1. }
    destruct (status_eqb (status c) expired) eqn:E2; simpl.
    + destruct (receivedRaw c =? 0) eqn:E3; simpl; [|reflexivity].
      apply status_eqb_true in E2. apply Z.eqb_eq in E3. exfalso. apply Hno. right. auto.
    + reflexivity.
Qed.

(** ** A successful sweep *)

Lemma status_eqb_false (a b : ChargeStatus) : a <> b -> status_eqb a b = false.
Proof. unfold status_eqb. destruct (ChargeStatus_eq_dec a b); congruence. Qed.

Lemma length_app_one {A} (l : list A) (a : A) : length (l ++ [a]) = S (length l).
Proof. rewrite length_app. simpl. lia. Qed.

(** The first steps of [sweepCharge] on a charge that is not [swept], with
    [receivePending] resolved, a nonzero balance and a successful send *)
Lemma sweepCharge_unfold (cid : string) (now : Z) (env : SweepEnv) (p : Processor)
    (c : Charge) (h : string) :
  map_get cid p.(charges) = Some c -> c.(status) <> swept ->
  env.(receivePendingOk) = true -> env.(balance) <> 0 -> env.(sendResult) = Some h ->
  sweepCharge cid now env p =
  (let bal := env.(balance) in
   let c1 := mark_swept now h c in
   let p1 := log_send (deriveAccount p.(mainAccountIndex)) bal c.(accountIndex) p in
   let p2 := set_charges (map_set cid c1 p1.(charges)) p1 in
   let p3 := set_monitored (set_remove c.(address) p2.(monitored))
               (set_addr (map_delete c.(address) p2.(addressToChargeId)) p2) in
   let p4 := emit "charge:swept" cid (persistStateNow now p3) in
   if truthy_str c.(webhookUrl) && negb (truthy_bool c.(webhookSent)) then
     match callWebhook cid c1 h bal now env.(webhookResponse) p4 with
     | Ok _ p5 => Ok (Some (h, bal)) p5
     | Err e p5 => Err e (emit "error" cid p5)
     end
   else Ok (Some (h, bal)) p4).
Proof.
  intros Hg Hs Hr Hb Hh. unfold sweepCharge. rewrite Hg, (status_eqb_false _ _ Hs), Hr.
  apply Z.eqb_neq in Hb. rewrite Hb, Hh. reflexivity.
Qed.

(** C4: a sweep of an existing, not yet [swept] charge whose balance after
    [receivePending] is nonzero, that resolves: it returns the send's hash
    and the whole balance, the one ledger send moves the whole balance from
    the charge's sub-account to the main address, the charge is [swept] with
    its sweep time and hash, its address is out of the address index and of
    the monitor, the file holds the final state (written at once, timer
    cleared), and exactly one webhook POST is made if and only if a
    (non-empty) webhook URL is set and [webhookSent] is not set. *)
Theorem sweepCharge_success (cid : string) (now : Z) (env : SweepEnv) (p : Processor)
    (c : Charge) (h : string) (r : option (string * Z)) (p' : Processor) :
  map_get cid p.(charges) = Some c ->
  c.(status) <> swept ->
  env.(receivePendingOk) = true ->
  env.(balance) <> 0 ->
  env.(sendResult) = Some h ->
  sweepCharge cid now env p = Ok r p' ->
  r = Some (h, env.(balance)) /\
  p'.(ledgerSends) =
    p.(ledgerSends) ++ [(deriveAccount p.(mainAccountIndex), env.(balance), c.(accountIndex))] /\
  (exists c', map_get cid p'.(charges) = Some c' /\ c'.(status) = swept /\
     c'.(sweptAt) = Some (Some now) /\ c'.(sweepTxHash) = Some h) /\
  map_get c.(address) p'.(addressToChargeId) = None /\
  ~ In c.(address) p'.(monitored) /\
  p'.(saveDebounceTimer) = false /\
  p'.(disk) = savePersistedState
                (mkPersisted p'.(nextAccountIndex) (map snd p'.(charges)) (toISOString now)) /\
  length p'.(webhookPosts) =
    (length p.(webhookPosts) +
     if truthy_str c.(webhookUrl) && negb (truthy_bool c.(webhookSent)) then 1 else 0)%nat.
Proof.
  intros Hg Hs Hr Hb Hh Hsw.
  rewrite (sweepCharge_unfold cid now env p c h Hg Hs Hr Hb Hh) in Hsw. cbv zeta in Hsw.
  destruct (truthy_str (webhookUrl c) && negb (truthy_bool (webhookSent c))) eqn:Ew.
  - apply andb_true_iff in Ew as [Ew _].
    unfold callWebhook in Hsw. cbn [webhookUrl mark_swept] in Hsw. rewrite Ew in Hsw.
    cbn [negb] in Hsw.
    destruct (webhook_payload (mark_swept now h c) h (balance env) now); [|discriminate].
    destruct (webhookResponse env); injection Hsw as <- <-; cbn;
      rewrite ?map_get_set_same, ?map_get_delete, ?String.eqb_refl;
      (split; [reflexivity|]); (split; [reflexivity|]);
      (split; [eexists; split; [reflexivity|]; repeat split|]);
      (split; [reflexivity|]); (split; [apply not_In_set_remove|]);
      (split; [reflexivity|]); (split; [reflexivity|]);
      rewrite length_app_one; lia.
  - injection Hsw as <- <-. cbn.
    rewrite ?map_get_set_same, ?map_get_delete, ?String.eqb_refl.
    split; [reflexivity|]. split; [reflexivity|].
    split; [eexists; split; [reflexivity|]; repeat split|].
    split; [reflexivity|]. split; [apply not_In_set_remove|].
    split; [reflexivity|]. split; [reflexivity|]. lia.
Qed.

Lemma webhook_payload_swept (c : Charge) (now : Z) (h : string) (bal : Z) :
  c.(completedAt) <> Some None ->
  exists payload, webhook_payload (mark_swept now h c) h bal now = Some payload.
Proof.
  unfold webhook_payload, iso_field. cbn [completedAt sweptAt mark_swept].
  destruct (completedAt c) as [[t|]|]; intros Hc; [| now destruct Hc |]; eexists; reflexivity.
Qed.

(** C6: sweeping a charge that has a (non-empty) webhook URL and no
    [webhookSent] flag makes exactly one webhook POST, to that URL; whatever
    the response (ok, non-2xx, transport failure) the sweep resolves with
    its hash and amount; on an ok response the flag is set and the file
    holds the final state, otherwise the flag is unchanged; the charge is
    [swept] either way, and every later [sweepCharge] of it resolves with
    "nothing to sweep", changing nothing (no second POST).  (The payload
    needs [completedAt] not to be an Invalid Date: [toISOString] would throw
    before the POST.) *)
Theorem sweep_webhook_single_attempt (cid : string) (now : Z) (env : SweepEnv)
    (p : Processor) (c : Charge) (h : string) :
  map_get cid p.(charges) = Some c ->
  c.(status) <> swept ->
  env.(receivePendingOk) = true ->
  env.(balance) <> 0 ->
  env.(sendResult) = Some h ->
  truthy_str c.(webhookUrl) = true ->
  truthy_bool c.(webhookSent) = false ->
  c.(completedAt) <> Some None ->
  exists p', sweepCharge cid now env p = Ok (Some (h, env.(balance))) p' /\
    length p'.(webhookPosts) = S (length p.(webhookPosts)) /\
    map fst p'.(webhookPosts) = map fst p.(webhookPosts) ++ [match c.(webhookUrl) with Some u => u | None => "" end] /\
    exists c', map_get cid p'.(charges) = Some c' /\ c'.(status) = swept /\
      (env.(webhookResponse) = FetchOk ->
         c'.(webhookSent) = Some true /\
         p'.(disk) = savePersistedState
                       (mkPersisted p'.(nextAccountIndex) (map snd p'.(charges)) (toISOString now))) /\
      (env.(webhookResponse) <> FetchOk -> c'.(webhookSent) = c.(webhookSent)) /\
      (forall now' env', sweepCharge cid now' env' p' = Ok None p').
Proof.
  intros Hg Hs Hr Hb Hh Hu Hw Hc.
  rewrite (sweepCharge_unfold cid now env p c h Hg Hs Hr Hb Hh). cbv zeta.
  rewrite Hu, Hw. cbn [andb negb].
  unfold callWebhook. cbn [webhookUrl mark_swept]. rewrite Hu. cbn [negb].
  destruct (webhook_payload_swept c now h (balance env) Hc) as [payload Hp].
  rewrite Hp.
  destruct (webhookResponse env) eqn:Er; eexists; (split; [reflexivity|]); cbn;
    (split; [apply length_app_one|]);
    (split; [rewrite !map_app; reflexivity|]);
    rewrite ?map_get_set_same; (eexists; split; [reflexivity|]);
    (split; [reflexivity|]);
    (split; [intros _; split; reflexivity || discriminate | ]) ||
    (split; [discriminate|]);
    (split; [ intros Hne; reflexivity || (exfalso; apply Hne; reflexivity) |]);
    intros now' env'; unfold sweepCharge; cbn; rewrite map_get_set_same; reflexivity.
Qed.

(** ** Received totals *)

Lemma In_map_set {V} (kv : string * V) (k : string) (v : V) m :
  In kv (map_set k v m) -> kv = (k, v) \/ In kv m.
Proof.
  induction m as [|[k1 v1] m IH]; simpl; intros H.
  - destruct H as [H|[]]. left. symmetry. exact H.
  - destruct (String.eqb k k1); simpl in H.
    + destruct H as [H|H]; [left; symmetry; exact H | right; right; exact H].
    + destruct H as [H|H]; [right; left; exact H|].
      destruct (IH H) as [E|E]; [left; exact E | right; right; exact E].
Qed.

Lemma map_get_In {V} (k : string) (v : V) m : map_get k m = Some v -> In (k, v) m.
Proof.
  induction m as [|[k1 v1] m IH]; simpl; [discriminate|].
  destruct (String.eqb k k1) eqn:E; intros H.
  - injection H as <-. apply String.eqb_eq in E. subst. left. reflexivity.
  - right. apply IH, H.
Qed.

Lemma consistent_set (m : list (string * Charge)) (k : string) (v : Charge) :
  consistent_map m -> received_consistent v -> consistent_map (map_set k v m).
Proof.
  intros Hm Hv kv H. apply In_map_set in H as [->|H]; [exact Hv | apply Hm, H].
Qed.

Lemma consistent_filter (m : list (string * Charge)) f :
  consistent_map m -> consistent_map (filter f m).
Proof. intros Hm kv H. apply filter_In in H as [H _]. apply Hm, H. Qed.

Lemma consistent_get (m : list (string * Charge)) (k : string) (c : Charge) :
  consistent_map m -> map_get k m = Some c -> received_consistent c.
Proof. intros Hm H. apply (Hm (k, c)), map_get_In, H. Qed.

Lemma sum_tx_app (l : list Tx.t) (t : Tx.t) :
  sum_tx (l ++ [t]) = sum_tx l + t.(Tx.amountRaw).
Proof. induction l as [|a l IH]; simpl; [lia | rewrite IH; lia]. Qed.

Lemma consistent_push (f : Z -> string) (t : Tx.t) (c : Charge) :
  received_consistent c -> received_consistent (push_payment f t c).
Proof.
  unfold received_consistent, push_payment. cbn. intros H. rewrite sum_tx_app, H. reflexivity.
Qed.

Lemma consistent_status (s : ChargeStatus) (c : Charge) :
  received_consistent c -> received_consistent (set_status s c).
Proof. exact (fun H => H). Qed.

Lemma consistent_completed (now : Z) (c : Charge) :
  received_consistent c -> received_consistent (mark_completed now c).
Proof. exact (fun H => H). Qed.

Lemma consistent_swept (now : Z) (h : string) (c : Charge) :
  received_consistent c -> received_consistent (mark_swept now h c).
Proof. exact (fun H => H). Qed.

Lemma consistent_sent (c : Charge) :
  received_consistent c -> received_consistent (mark_webhook_sent c).
Proof. exact (fun H => H). Qed.

Create HintDb ledger.
#[local] Hint Resolve consistent_set consistent_filter consistent_get consistent_push
  consistent_status consistent_completed consistent_swept consistent_sent : ledger.

(** The charge map after [sweepCharge]: unchanged, or the charge marked
    [swept] (and then possibly [webhookSent]) *)
Lemma sweepCharge_charges (cid : string) (now : Z) (env : SweepEnv) (p : Processor) :
  (state_of (sweepCharge cid now env p)).(charges) = p.(charges) \/
  exists c h, map_get cid p.(charges) = Some c /\
    ((state_of (sweepCharge cid now env p)).(charges) =
       map_set cid (mark_swept now h c) p.(charges) \/
     (state_of (sweepCharge cid now env p)).(charges) =
       map_set cid (mark_webhook_sent (mark_swept now h c))
         (map_set cid (mark_swept now h c) p.(charges))).
Proof.
  unfold sweepCharge.
  destruct (map_get cid (charges p)) as [c|] eqn:Hg; [|left; reflexivity].
  destruct (status_eqb (status c) swept); [left; reflexivity|].
  destruct (receivePendingOk env); cbn [negb]; [|left; reflexivity].
  destruct (balance env =? 0); [left; reflexivity|].
  destruct (sendResult env) as [h|]; [|left; reflexivity].
  right. exists c, h. split; [reflexivity|].
  destruct (truthy_str (webhookUrl (mark_swept now h c)) &&
            negb (truthy_bool (webhookSent (mark_swept now h c)))); [|left; reflexivity].
  unfold callWebhook.
  destruct (negb (truthy_str (webhookUrl (mark_swept now h c)))); [left; reflexivity|].
  destruct (webhook_payload (mark_swept now h c) h (balance env) now); [|left; reflexivity].
  destruct (webhookResponse env); [right | left | left]; reflexivity.
Qed.

Lemma consistent_sweep (cid : string) (now : Z) (env : SweepEnv) (p : Processor) :
  consistent_map p.(charges) ->
  consistent_map (state_of (sweepCharge cid now env p)).(charges).
Proof.
  intros H. destruct (sweepCharge_charges cid now env p) as [E | (c & h & Hg & [E|E])];
    rewrite E; [exact H | |];
    pose proof (consistent_get _ _ _ H Hg); eauto 7 with ledger.
Qed.

Lemma chargeByAddress_get (a : string) (p : Processor) (cid : string) (c : Charge) :
  chargeByAddress a p = Some (cid, c) -> map_get cid p.(charges) = Some c.
Proof.
  unfold chargeByAddress. destruct (map_get a (addressToChargeId p)) as [k|]; [|discriminate].
  destruct (String.eqb k ""); [discriminate|].
  destruct (map_get k (charges p)) eqn:E; [|discriminate].
  intros H; injection H as <- <-. exact E.
Qed.

Lemma consistent_handlePayment (now : Z) (env : SweepEnv) (pay : PaymentEvent) (p : Processor) :
  consistent_map p.(charges) -> consistent_map (handlePayment now env pay p).(charges).
Proof.
  intros H. unfold handlePayment.
  destruct (chargeByAddress (pay_to pay) p) as [[cid c]|] eqn:Hb; [|exact H].
  apply chargeByAddress_get in Hb.
  destruct (status c); try exact H;
    (destruct (amountRaw _ <=? receivedRaw _);
     [ match goal with |- context [if ?b then _ else _] => destruct b end;
       [apply consistent_sweep|]; cbn; eauto 8 with ledger
     | cbn; eauto 8 with ledger ]).
Qed.

Lemma consistent_recover_blocks (now : Z) (cid : string) (pend : list (PendingBlock * bool))
    (c : Charge) (p : Processor) :
  consistent_map p.(charges) -> received_consistent c ->
  consistent_map (snd (recover_blocks now cid pend c p)).(charges) /\
  received_consistent (fst (recover_blocks now cid pend c p)).
Proof.
  revert c p. induction pend as [|[pb ok] pend IH]; intros c p Hm Hc; simpl; [auto|].
  destruct ok; apply IH; cbn; eauto with ledger.
Qed.

Lemma consistent_recover_charge (now : Z) (cid : string) (pend : list (PendingBlock * bool))
    (env : SweepEnv) (p : Processor) :
  consistent_map p.(charges) -> consistent_map (recover_charge now cid pend env p).(charges).
Proof.
  intros H. unfold recover_charge.
  destruct (map_get cid (charges p)) as [c|] eqn:Hg; [|exact H].
  destruct pend as [|b pend']; [exact H|].
  pose proof (consistent_get _ _ _ H Hg) as Hc.
  destruct (consistent_recover_blocks now cid (b :: pend') c (emit "recovery:found" cid p) H Hc)
    as [Hm1 Hc1].
  destruct (amountRaw _ <=? receivedRaw _).
  - match goal with |- context [if ?b then _ else _] => destruct b end.
    + match goal with |- context [sweepCharge ?i ?n ?e ?q] =>
        pose proof (consistent_sweep i n e q) as Hs; destruct (sweepCharge i n e q) end;
      cbn in *; apply Hs; cbn; eauto with ledger.
    + cbn. eauto with ledger.
  - destruct (0 <? _); cbn; eauto with ledger.
Qed.

Lemma consistent_checkMissedPayments (now : Z) (renv : RecoveryEnv) (p : Processor) :
  consistent_map p.(charges) -> consistent_map (checkMissedPayments now renv p).(charges).
Proof.
  unfold checkMissedPayments. generalize (active_ids p). intros l. revert p.
  induction l as [|cid l IH]; intros p H; simpl; [exact H|].
  apply IH, consistent_recover_charge, H.
Qed.

Lemma consistent_checkExpiredCharges (now : Z) (p : Processor) :
  consistent_map p.(charges) -> consistent_map (fst (checkExpiredCharges now p)).(charges).
Proof.
  intros H. unfold checkExpiredCharges.
  assert (G : forall l acc, consistent_map (fst (fst acc)).(charges) ->
            consistent_map (fst (fst (fold_left (expire_one now) l acc))).(charges)).
  { induction l as [|cid l IH]; intros [[q ch] sp] Hq; simpl; [exact Hq|].
    apply IH. unfold expire_one.
    destruct (map_get cid (charges q)) as [c|] eqn:Hg; [|exact Hq].
    destruct (is_active (status c) && date_lt (expiresAt c) now); [|exact Hq].
    pose proof (consistent_get _ _ _ Hq Hg).
    destruct ((0 <? receivedRaw c) && _); cbn; eauto with ledger. }
  specialize (G (map fst (charges p)) (p, false, []) H).
  destruct (fold_left (expire_one now) (map fst (charges p)) (p, false, [])) as [[q ch] sp].
  destruct ch; exact G.
Qed.

Lemma consistent_step (p p' : Processor) :
  step p p' -> consistent_map p.(charges) -> consistent_map p'.(charges).
Proof.
  intros Hs H. destruct Hs.
  - cbn. apply consistent_set; [exact H|]. reflexivity.
  - apply consistent_handlePayment, H.
  - apply consistent_sweep, H.
  - apply consistent_checkExpiredCharges, H.
  - apply consistent_checkMissedPayments, H.
  - unfold deleteCharge. destruct (map_get cid (charges p)); [|exact H].
    destruct (_ && _); cbn; [exact H | apply consistent_filter, H].
  - unfold cleanupSweptCharges. destruct (0 <? _); cbn; apply consistent_filter, H.
  - unfold flushTimer. destruct (saveDebounceTimer p); exact H.
Qed.

(** The sweep keeps the recorded transactions and the received total of
    every charge *)
Lemma sweep_keeps_ledger (cid : string) (now : Z) (env : SweepEnv) (p : Processor)
    (k : string) (c : Charge) :
  map_get k p.(charges) = Some c ->
  exists c', map_get k (state_of (sweepCharge cid now env p)).(charges) = Some c' /\
    c'.(transactions) = c.(transactions) /\ c'.(receivedRaw) = c.(receivedRaw).
Proof.
  intros Hk. destruct (sweepCharge_charges cid now env p) as [E | (c0 & h & Hg & E)].
  - rewrite E. eauto.
  - destruct E as [E|E]; rewrite E, ?map_get_set;
      destruct (String.eqb k cid) eqn:Ek; eauto;
      apply String.eqb_eq in Ek; subst; rewrite Hg in Hk; injection Hk as <-;
      (eexists; split; [reflexivity | split; reflexivity]).
Qed.

Lemma recover_blocks_ledger (now : Z) (cid : string) (pend : list (PendingBlock * bool))
    (c : Charge) (p : Processor) :
  (fst (recover_blocks now cid pend c p)).(transactions) =
    c.(transactions) ++ recovered_txs now pend /\
  (fst (recover_blocks now cid pend c p)).(receivedRaw) =
    c.(receivedRaw) + sum_tx (recovered_txs now pend) /\
  (map_get cid p.(charges) = Some c ->
   map_get cid (snd (recover_blocks now cid pend c p)).(charges) =
     Some (fst (recover_blocks now cid pend c p))).
Proof.
  revert c p. induction pend as [|[pb ok] pend IH]; intros c p; simpl.
  - rewrite app_nil_r. split; [reflexivity|]. split; [lia | auto].
  - destruct ok; cbn.
    + destruct (IH (push_payment rawToNano (Tx.mk (pb_hash pb) (pb_source pb) (pb_amount pb)
                   (rawToNano (pb_amount pb)) (Some now)) c)
                 (emit "charge:payment" cid (set_charges (map_set cid
                   (push_payment rawToNano (Tx.mk (pb_hash pb) (pb_source pb) (pb_amount pb)
                      (rawToNano (pb_amount pb)) (Some now)) c) (charges p)) p)))
        as (H1 & H2 & H3).
      rewrite H1, H2. unfold sum_tx, recovered_txs. cbn. rewrite <- app_assoc.
      split; [reflexivity|]. split; [lia|].
      intros _. apply H3. cbn. apply map_get_set_same.
    + destruct (IH c (emit "error" cid p)) as (H1 & H2 & H3).
      unfold recovered_txs in *. cbn.
      split; [exact H1|]. split; [exact H2|]. exact H3.
Qed.

Lemma recover_charge_ledger (now : Z) (cid : string) (pend : list (PendingBlock * bool))
    (env : SweepEnv) (p : Processor) (c : Charge) :
  map_get cid p.(charges) = Some c ->
  exists c', map_get cid (recover_charge now cid pend env p).(charges) = Some c' /\
    c'.(transactions) = c.(transactions) ++ recovered_txs now pend /\
    c'.(receivedRaw) = c.(receivedRaw) + sum_tx (recovered_txs now pend).
Proof.
  intros Hg. unfold recover_charge. rewrite Hg.
  destruct pend as [|b pend'].
  - exists c. simpl. rewrite app_nil_r. split; [exact Hg | split; [reflexivity | lia]].
  - destruct (recover_blocks_ledger now cid (b :: pend') c (emit "recovery:found" cid p))
      as (H1 & H2 & H3).
    specialize (H3 Hg).
    destruct (amountRaw _ <=? receivedRaw _).
    + match goal with |- context [if ?b then _ else _] => destruct b end.
      * match goal with |- context [sweepCharge ?i ?n ?e ?q] =>
          destruct (sweep_keeps_ledger i n e q cid
                      (mark_completed now (fst (recover_blocks now cid (b :: pend') c
                                                  (emit "recovery:found" cid p)))))
            as (c' & Hc' & T & R);
          [cbn; apply map_get_set_same|];
          destruct (sweepCharge i n e q) end;
        cbn in *; exists c'; (split; [exact Hc'|]); rewrite T, R; cbn; auto.
      * cbn. rewrite map_get_set_same. eexists; split; [reflexivity|]. cbn. auto.
    + destruct (0 <? _); cbn.
      * rewrite map_get_set_same. eexists; split; [reflexivity|]. cbn. auto.
      * eexists; split; [exact H3|]. auto.
Qed.

(** C2: every operation keeps each stored charge's received total equal to
    the sum of its recorded transaction amounts; a created charge starts
    with 0 and no transaction; a payment event applied to an active
    (pending or partial) charge appends exactly the one transaction built
    from the event and adds exactly its amount; the recovery of a charge
    appends one transaction per received pending block and adds exactly
    their amounts. *)
Theorem received_matches_transactions :
  (forall p p', step p p' -> consistent_map p.(charges) -> consistent_map p'.(charges)) /\
  (forall cid now o p, received_consistent (fst (createCharge cid now o p))) /\
  (forall now env pay p cid c,
     chargeByAddress pay.(pay_to) p = Some (cid, c) -> is_active c.(status) = true ->
     exists c', map_get cid (handlePayment now env pay p).(charges) = Some c' /\
       c'.(transactions) = c.(transactions) ++
         [Tx.mk pay.(pay_hash) pay.(pay_from) pay.(pay_amount) pay.(pay_amountNano)
            pay.(pay_timestamp)] /\
       c'.(receivedRaw) = c.(receivedRaw) + pay.(pay_amount)) /\
  (forall now cid pend env p c,
     map_get cid p.(charges) = Some c ->
     exists c', map_get cid (recover_charge now cid pend env p).(charges) = Some c' /\
       c'.(transactions) = c.(transactions) ++ recovered_txs now pend /\
       c'.(receivedRaw) = c.(receivedRaw) + sum_tx (recovered_txs now pend)).
Proof.
  split; [exact consistent_step|].
  split; [intros; reflexivity|].
  split; [|exact recover_charge_ledger].
  intros now env pay p cid c Hb Ha. unfold handlePayment. rewrite Hb.
  apply chargeByAddress_get in Hb.
  destruct (status c); try discriminate;
    (destruct (amountRaw _ <=? receivedRaw _);
     [ match goal with |- context [if ?b then _ else _] => destruct b end;
       [ match goal with |- context [sweepCharge ?i ?n ?e ?q] =>
           destruct (sweep_keeps_ledger i n e q cid
             (mark_completed now (push_payment rawToNano (Tx.mk (pay_hash pay) (pay_from pay)
                (pay_amount pay) (pay_amountNano pay) (pay_timestamp pay)) c)))
             as (c' & Hc' & T & R); [cbn; apply map_get_set_same|] end;
         exists c'; split; [exact Hc'|]; rewrite T, R; split; reflexivity
       | cbn; rewrite map_get_set_same; eexists; split; [reflexivity|]; split; reflexivity ]
     | cbn; rewrite map_get_set_same; eexists; split; [reflexivity|]; split; reflexivity ]).
Qed.

(** ** The order of statuses *)

Lemma keys_ok_get (m : list (string * Charge)) (k : string) (c : Charge) :
  keys_ok m -> map_get k m = Some c -> c.(id) = k.
Proof.
  intros [_ Hf] Hg. apply map_get_In in Hg.
  rewrite Forall_forall in Hf. exact (Hf _ Hg).
Qed.

Lemma NoDup_get {V} (m : list (string * V)) (k : string) (v : V) :
  NoDup (map fst m) -> In (k, v) m -> map_get k m = Some v.
Proof.
  induction m as [|[k1 v1] m IH]; simpl; [intros _ []|].
  intros Hn Hi. apply NoDup_cons_iff in Hn as [Hn1 Hn2].
  destruct Hi as [E|Hi].
  - injection E as -> ->. rewrite String.eqb_refl. reflexivity.
  - destruct (String.eqb k k1) eqn:E.
    + apply String.eqb_eq in E; subst. exfalso. apply Hn1.
      apply (in_map fst) in Hi. exact Hi.
    + apply IH; assumption.
Qed.

Lemma map_fst_set_present {V} (m : list (string * V)) (k : string) (v w : V) :
  map_get k m = Some w -> map fst (map_set k v m) = map fst m.
Proof.
  induction m as [|[k1 v1] m IH]; simpl; [discriminate|].
  destruct (String.eqb k k1) eqn:E; intros H.
  - apply String.eqb_eq in E; subst. reflexivity.
  - simpl. rewrite (IH H). reflexivity.
Qed.

Lemma map_set_absent {V} (m : list (string * V)) (k : string) (v : V) :
  map_get k m = None -> map_set k v m = m ++ [(k, v)].
Proof.
  induction m as [|[k1 v1] m IH]; simpl; [reflexivity|].
  destruct (String.eqb k k1); [discriminate|]. intros H. rewrite (IH H). reflexivity.
Qed.

Lemma map_get_None_notin {V} (m : list (string * V)) (k : string) :
  map_get k m = None -> ~ In k (map fst m).
Proof.
  induction m as [|[k1 v1] m IH]; simpl; [auto|].
  destruct (String.eqb k k1) eqn:E; [discriminate|]. intros H [E1|Hi].
  - subst. rewrite String.eqb_refl in E. discriminate.
  - exact (IH H Hi).
Qed.

Lemma NoDup_snoc {A} (l : list A) (a : A) : NoDup l -> ~ In a l -> NoDup (l ++ [a]).
Proof.
  induction l as [|b l IH]; simpl; intros Hn Hi.
  - constructor; [auto | constructor].
  - apply NoDup_cons_iff in Hn as [Hb Hl]. constructor.
    + rewrite in_app_iff. simpl. intros [H|[H|[]]]; [exact (Hb H) | apply Hi; left; symmetry; exact H].
    + apply IH; [exact Hl | intros H; apply Hi; right; exact H].
Qed.

Lemma keys_ok_update (m : list (string * Charge)) (k : string) (c v : Charge) :
  keys_ok m -> map_get k m = Some c -> v.(id) = c.(id) -> keys_ok (map_set k v m).
Proof.
  intros Hk Hg Hv. pose proof (keys_ok_get _ _ _ Hk Hg) as Hc.
  destruct Hk as [Hn Hf]. split.
  - rewrite (map_fst_set_present _ _ _ _ Hg). exact Hn.
  - rewrite Forall_forall in *. intros kv Hi. apply In_map_set in Hi as [->|Hi].
    + simpl. congruence.
    + exact (Hf _ Hi).
Qed.

Lemma keys_ok_new (m : list (string * Charge)) (k : string) (v : Charge) :
  keys_ok m -> map_get k m = None -> v.(id) = k -> keys_ok (map_set k v m).
Proof.
  intros [Hn Hf] Hg Hv. rewrite (map_set_absent _ _ _ Hg). split.
  - rewrite map_app. simpl. apply NoDup_snoc; [exact Hn | apply map_get_None_notin, Hg].
  - apply Forall_app. split; [exact Hf | constructor; [exact Hv | constructor]].
Qed.

Lemma NoDup_map_fst_filter {V} (f : string * V -> bool) (m : list (string * V)) :
  NoDup (map fst m) -> NoDup (map fst (filter f m)).
Proof.
  induction m as [|[k1 v1] m IH]; simpl; [auto|].
  intros Hn. apply NoDup_cons_iff in Hn as [Hn1 Hn2].
  destruct (f (k1, v1)); simpl; [|exact (IH Hn2)].
  constructor; [|exact (IH Hn2)].
  intros Hi. apply in_map_iff in Hi as ([k2 v2] & E & Hi). simpl in E; subst.
  apply filter_In in Hi as [Hi _]. apply Hn1. apply (in_map fst) in Hi. exact Hi.
Qed.

Lemma keys_ok_filter (f : string * Charge -> bool) (m : list (string * Charge)) :
  keys_ok m -> keys_ok (filter f m).
Proof.
  intros [Hn Hf]. split; [apply NoDup_map_fst_filter, Hn|].
  rewrite Forall_forall in *. intros kv Hi. apply filter_In in Hi as [Hi _]. exact (Hf _ Hi).
Qed.

Lemma map_get_filter {V} (f : string * V -> bool) (m : list (string * V)) (k : string) (v : V) :
  NoDup (map fst m) -> map_get k (filter f m) = Some v -> map_get k m = Some v.
Proof.
  intros Hn H. apply map_get_In, filter_In in H as [H _]. exact (NoDup_get _ _ _ Hn H).
Qed.

Lemma adv_refl (m : list (string * Charge)) : adv_map m m.
Proof. intros k c H. exists c. split; [exact H | apply advances_refl]. Qed.

Lemma adv_trans (m1 m2 m3 : list (string * Charge)) :
  adv_map m1 m2 -> adv_map m2 m3 -> adv_map m1 m3.
Proof.
  intros H12 H23 k c H. destruct (H12 k c H) as (c2 & H2 & A2).
  destruct (H23 k c2 H2) as (c3 & H3 & A3). exists c3.
  split; [exact H3 | exact (advances_trans _ _ _ A2 A3)].
Qed.

Lemma adv_set (m : list (string * Charge)) (k : string) (v : Charge) :
  (forall c, map_get k m = Some c -> advances c.(status) v.(status) = true) ->
  adv_map m (map_set k v m).
Proof.
  intros Hv k' c H. rewrite map_get_set. destruct (String.eqb k' k) eqn:E.
  - apply String.eqb_eq in E; subst. exists v. split; [reflexivity | exact (Hv c H)].
  - exists c. split; [exact H | apply advances_refl].
Qed.

Lemma adv_statuses (p p' : Processor) :
  adv_map p.(charges) p'.(charges) -> statuses_advance p p'.
Proof.
  intros H k c c' Hc Hc'. destruct (H k c Hc) as (c'' & H'' & A). congruence.
Qed.

Lemma advances_swept (s : ChargeStatus) : advances s swept = true.
Proof. destruct s; reflexivity. Qed.

(** One update of a stored charge along [advances], keeping its id *)
Lemma flow_update (m0 m : list (string * Charge)) (k : string) (c v : Charge) :
  keys_ok m /\ adv_map m0 m -> map_get k m = Some c -> v.(id) = c.(id) ->
  advances c.(status) v.(status) = true ->
  keys_ok (map_set k v m) /\ adv_map m0 (map_set k v m).
Proof.
  intros [Hk Ha] Hg Hi Hs. split; [exact (keys_ok_update _ _ _ _ Hk Hg Hi)|].
  apply (adv_trans _ m); [exact Ha|]. apply adv_set. intros c' H. congruence.
Qed.

Lemma flow_update2 (m0 m : list (string * Charge)) (k : string) (c v1 v2 : Charge) :
  keys_ok m /\ adv_map m0 m -> map_get k m = Some c -> v1.(id) = c.(id) -> v2.(id) = c.(id) ->
  advances c.(status) v1.(status) = true -> advances v1.(status) v2.(status) = true ->
  keys_ok (map_set k v2 (map_set k v1 m)) /\ adv_map m0 (map_set k v2 (map_set k v1 m)).
Proof.
  intros H Hg I1 I2 S1 S2. apply (flow_update _ _ _ v1); [| apply map_get_set_same | congruence | exact S2].
  apply (flow_update _ _ _ c); assumption.
Qed.

Lemma sweep_flow (m0 : list (string * Charge)) (cid : string) (now : Z) (env : SweepEnv)
    (p : Processor) :
  keys_ok p.(charges) /\ adv_map m0 p.(charges) ->
  keys_ok (state_of (sweepCharge cid now env p)).(charges) /\
  adv_map m0 (state_of (sweepCharge cid now env p)).(charges).
Proof.
  intros H. destruct (sweepCharge_charges cid now env p) as [E | (c & h & Hg & [E|E])];
    rewrite E.
  - exact H.
  - apply (flow_update _ _ _ c); [exact H | exact Hg | reflexivity | apply advances_swept].
  - apply (flow_update2 _ _ _ c); [exact H | exact Hg | reflexivity | reflexivity
                                   | apply advances_swept | reflexivity].
Qed.

Lemma sweep_other (cid k : string) (now : Z) (env : SweepEnv) (p : Processor) :
  k <> cid ->
  map_get k (state_of (sweepCharge cid now env p)).(charges) = map_get k p.(charges).
Proof.
  intros Hne. apply String.eqb_neq in Hne.
  destruct (sweepCharge_charges cid now env p) as [E | (c & h & Hg & [E|E])];
    rewrite E, ?map_get_set, ?Hne; reflexivity.
Qed.

Lemma handlePayment_flow (now : Z) (env : SweepEnv) (pay : PaymentEvent) (p : Processor) :
  keys_ok p.(charges) ->
  keys_ok (handlePayment now env pay p).(charges) /\
  adv_map p.(charges) (handlePayment now env pay p).(charges).
Proof.
  intros Hk. assert (H0 : keys_ok p.(charges) /\ adv_map p.(charges) p.(charges))
    by (split; [exact Hk | apply adv_refl]).
  unfold handlePayment.
  destruct (chargeByAddress (pay_to pay) p) as [[cid c]|] eqn:Hb; [|exact H0].
  apply chargeByAddress_get in Hb.
  destruct (status c) eqn:Hs; try exact H0;
    (destruct (amountRaw _ <=? receivedRaw _);
     [ match goal with |- context [if ?b then _ else _] => destruct b end;
       [ apply sweep_flow | ]; cbn;
       (apply (flow_update2 _ _ _ c); [exact H0 | exact Hb | reflexivity | reflexivity
                                       | cbn; rewrite Hs; reflexivity | cbn; rewrite Hs; reflexivity])
     | cbn;
       (apply (flow_update2 _ _ _ c); [exact H0 | exact Hb | reflexivity | reflexivity
                                       | cbn; rewrite Hs; reflexivity | cbn; rewrite Hs; reflexivity]) ]).
Qed.

Lemma map_set_set {V} (k : string) (v w : V) (m : list (string * V)) :
  map_set k v (map_set k w m) = map_set k v m.
Proof.
  induction m as [|[k1 v1] m IH]; simpl.
  - rewrite String.eqb_refl. reflexivity.
  - destruct (String.eqb k k1) eqn:E; simpl; rewrite ?String.eqb_refl, ?E, ?IH; reflexivity.
Qed.

Lemma map_set_get {V} (k : string) (v : V) (m : list (string * V)) :
  map_get k m = Some v -> map_set k v m = m.
Proof.
  induction m as [|[k1 v1] m IH]; simpl; [discriminate|].
  destruct (String.eqb k k1) eqn:E; intros H.
  - injection H as ->. apply String.eqb_eq in E; subst. reflexivity.
  - rewrite (IH H). reflexivity.
Qed.

(** The loop over the pending blocks rewrites the one charge, keeping its
    id and status *)
Lemma recover_blocks_shape (now : Z) (cid : string) (pend : list (PendingBlock * bool))
    (c : Charge) (p : Processor) :
  map_get cid p.(charges) = Some c ->
  (snd (recover_blocks now cid pend c p)).(charges) =
    map_set cid (fst (recover_blocks now cid pend c p)) p.(charges) /\
  (fst (recover_blocks now cid pend c p)).(id) = c.(id) /\
  (fst (recover_blocks now cid pend c p)).(status) = c.(status).
Proof.
  revert c p. induction pend as [|[pb ok] pend IH]; intros c p Hg; simpl.
  - rewrite (map_set_get _ _ _ Hg). auto.
  - destruct ok.
    + match goal with |- context [recover_blocks now cid pend ?c1 ?q] =>
        destruct (IH c1 q) as (E & I & S); [cbn; apply map_get_set_same|] end.
      rewrite E, I, S. cbn. rewrite map_set_set. auto.
    + exact (IH c (emit "error" cid p) Hg).
Qed.

Lemma recover_charge_flow (now : Z) (cid : string) (pend : list (PendingBlock * bool))
    (env : SweepEnv) (p : Processor) :
  keys_ok p.(charges) ->
  (forall c, map_get cid p.(charges) = Some c -> is_active c.(status) = true) ->
  keys_ok (recover_charge now cid pend env p).(charges) /\
  adv_map p.(charges) (recover_charge now cid pend env p).(charges).
Proof.
  intros Hk Hact. assert (H0 : keys_ok p.(charges) /\ adv_map p.(charges) p.(charges))
    by (split; [exact Hk | apply adv_refl]).
  unfold recover_charge.
  destruct (map_get cid (charges p)) as [c|] eqn:Hg; [|exact H0].
  specialize (Hact c eq_refl).
  destruct pend as [|b pend']; [exact H0|].
  destruct (recover_blocks_shape now cid (b :: pend') c (emit "recovery:found" cid p) Hg)
    as (E & I & S).
  destruct (recover_blocks now cid (b :: pend') c (emit "recovery:found" cid p)) as [c1 p1].
  cbn [fst snd] in *. cbn in E.
  assert (Hact' : advances (status c) completed = true /\ advances (status c) partial = true)
    by (destruct (status c); try discriminate; split; reflexivity).
  destruct (amountRaw c1 <=? receivedRaw c1).
  - match goal with |- context [if ?b then _ else _] => destruct b end.
    + match goal with |- context [sweepCharge ?i ?n ?e ?q] =>
        pose proof (sweep_flow (charges p) i n e q) as Hs; destruct (sweepCharge i n e q) end;
      cbn in *; apply Hs; cbn; rewrite E;
      (apply (flow_update2 _ _ _ c); [exact H0 | exact Hg | exact I | exact I
                                      | rewrite S; apply advances_refl | rewrite S; apply Hact']).
    + cbn. rewrite E.
      apply (flow_update2 _ _ _ c); [exact H0 | exact Hg | exact I | exact I
                                     | rewrite S; apply advances_refl | rewrite S; apply Hact'].
  - destruct (0 <? _); cbn; rewrite E.
    + apply (flow_update2 _ _ _ c); [exact H0 | exact Hg | exact I | exact I
                                     | rewrite S; apply advances_refl | rewrite S; apply Hact'].
    + apply (flow_update _ _ _ c); [exact H0 | exact Hg | exact I | rewrite S; apply advances_refl].
Qed.

Lemma recover_charge_other (now : Z) (cid k : string) (pend : list (PendingBlock * bool))
    (env : SweepEnv) (p : Processor) :
  keys_ok p.(charges) -> k <> cid ->
  map_get k (recover_charge now cid pend env p).(charges) = map_get k p.(charges).
Proof.
  intros Hk Hne. pose proof Hne as Hne'. apply String.eqb_neq in Hne'.
  unfold recover_charge.
  destruct (map_get cid (charges p)) as [c|] eqn:Hg; [|reflexivity].
  pose proof (keys_ok_get _ _ _ Hk Hg) as Hid.
  destruct pend as [|b pend']; [reflexivity|].
  destruct (recover_blocks_shape now cid (b :: pend') c (emit "recovery:found" cid p) Hg)
    as (E & I & S).
  destruct (recover_blocks now cid (b :: pend') c (emit "recovery:found" cid p)) as [c1 p1].
  cbn [fst snd] in *. cbn in E.
  destruct (amountRaw c1 <=? receivedRaw c1).
  - match goal with |- context [if ?b then _ else _] => destruct b end.
    + match goal with |- context [sweepCharge ?i ?n ?e ?q] =>
        pose proof (sweep_other i k n e q) as Hs; destruct (sweepCharge i n e q) end;
      cbn in *; rewrite Hs by congruence; cbn; rewrite E, !map_get_set, Hne'; reflexivity.
    + cbn. rewrite E, !map_get_set, Hne'. reflexivity.
  - destruct (0 <? _); cbn; rewrite E, ?map_get_set, Hne'; reflexivity.
Qed.

Lemma checkMissedPayments_flow (now : Z) (renv : RecoveryEnv) (p : Processor) :
  keys_ok p.(charges) ->
  keys_ok (checkMissedPayments now renv p).(charges) /\
  adv_map p.(charges) (checkMissedPayments now renv p).(charges).
Proof.
  intros Hk. unfold checkMissedPayments.
  assert (G : forall l q, NoDup l -> keys_ok q.(charges) ->
            (forall cid c, In cid l -> map_get cid q.(charges) = Some c ->
               is_active c.(status) = true) ->
            keys_ok (fold_left (fun p cid => recover_charge now cid (fst (renv cid))
                                   (snd (renv cid)) p) l q).(charges) /\
            adv_map q.(charges) (fold_left (fun p cid => recover_charge now cid (fst (renv cid))
                                   (snd (renv cid)) p) l q).(charges)).
  { induction l as [|cid l IH]; intros q Hn Hq Ha; simpl.
    - split; [exact Hq | apply adv_refl].
    - apply NoDup_cons_iff in Hn as [Hn1 Hn2].
      destruct (recover_charge_flow now cid (fst (renv cid)) (snd (renv cid)) q Hq
                  (fun c H => Ha cid c (or_introl eq_refl) H)) as [K1 A1].
      destruct (IH _ Hn2 K1) as [K2 A2].
      + intros cid' c Hi Hg. rewrite recover_charge_other in Hg by
          (exact Hq || (intros ->; exact (Hn1 Hi))).
        exact (Ha cid' c (or_intror Hi) Hg).
      + split; [exact K2 | exact (adv_trans _ _ _ A1 A2)]. }
  apply G; [| exact Hk |].
  - unfold active_ids. apply NoDup_map_fst_filter, Hk.
  - intros cid c Hi Hg. unfold active_ids in Hi.
    apply in_map_iff in Hi as ([k c0] & E & Hi). simpl in E; subst.
    apply filter_In in Hi as [Hi Hs].
    rewrite (NoDup_get _ _ _ (proj1 Hk) Hi) in Hg. injection Hg as ->. exact Hs.
Qed.

Lemma checkExpiredCharges_flow (now : Z) (p : Processor) :
  keys_ok p.(charges) ->
  keys_ok (fst (checkExpiredCharges now p)).(charges) /\
  adv_map p.(charges) (fst (checkExpiredCharges now p)).(charges).
Proof.
  intros Hk. unfold checkExpiredCharges.
  assert (G : forall l acc, keys_ok (fst (fst acc)).(charges) /\
                            adv_map p.(charges) (fst (fst acc)).(charges) ->
            keys_ok (fst (fst (fold_left (expire_one now) l acc))).(charges) /\
            adv_map p.(charges) (fst (fst (fold_left (expire_one now) l acc))).(charges)).
  { induction l as [|cid l IH]; intros [[q ch] sp] Hq; simpl; [exact Hq|].
    apply IH. unfold expire_one.
    destruct (map_get cid (charges q)) as [c|] eqn:Hg; [|exact Hq].
    destruct (is_active (status c)) eqn:Ha; [|exact Hq].
    destruct (date_lt (expiresAt c) now); [|exact Hq]. cbn [andb].
    assert (Hs : advances (status c) expired = true) by (destruct (status c); try discriminate; reflexivity).
    destruct ((0 <? receivedRaw c) && _); cbn;
      (apply (flow_update _ _ _ c); [exact Hq | exact Hg | reflexivity | exact Hs]). }
  specialize (G (map fst (charges p)) (p, false, []) (conj Hk (adv_refl _))).
  destruct (fold_left (expire_one now) (map fst (charges p)) (p, false, [])) as [[q ch] sp].
  destruct ch; exact G.
Qed.

Lemma flow_step_ok (p p' : Processor) :
  flow_step p p' -> keys_ok p.(charges) ->
  keys_ok p'.(charges) /\ adv_map p.(charges) p'.(charges).
Proof.
  intros Hs Hk. destruct Hs.
  - apply handlePayment_flow, Hk.
  - apply sweep_flow. split; [exact Hk | apply adv_refl].
  - apply checkExpiredCharges_flow, Hk.
  - apply checkMissedPayments_flow, Hk.
Qed.

Lemma flow_star (p p' : Processor) :
  clos_refl_trans _ flow_step p p' -> keys_ok p.(charges) ->
  keys_ok p'.(charges) /\ adv_map p.(charges) p'.(charges).
Proof.
  intros Hr. induction Hr as [p p' Hs | p | p1 p2 p3 _ IH1 _ IH2]; intros Hk.
  - exact (flow_step_ok p p' Hs Hk).
  - split; [exact Hk | apply adv_refl].
  - destruct (IH1 Hk) as [K2 A2]. destruct (IH2 K2) as [K3 A3].
    split; [exact K3 | exact (adv_trans _ _ _ A2 A3)].
Qed.

(** C1 (corrected): every operation keeps a charge store whose keys are
    distinct and are the ids of their charges, and changes the status of
    each charge it keeps only along [advances]; along any sequence of
    payments, expiry checks, sweeps and recoveries every charge is kept and
    its status only moves along [advances]; and [sweepCharge] moves to
    [swept] any charge not yet swept (whatever its status, an empty
    [expired] one included) whose balance after reconciliation is nonzero. *)
Theorem status_moves_forward :
  (forall p p', step p p' -> keys_ok p.(charges) ->
     keys_ok p'.(charges) /\ statuses_advance p p') /\
  (forall p p', clos_refl_trans _ flow_step p p' -> keys_ok p.(charges) ->
     adv_map p.(charges) p'.(charges)) /\
  (forall cid now env p c, map_get cid p.(charges) = Some c -> c.(status) <> swept ->
     env.(receivePendingOk) = true -> env.(balance) <> 0 -> env.(sendResult) <> None ->
     exists c', map_get cid (state_of (sweepCharge cid now env p)).(charges) = Some c' /\
       c'.(status) = swept).
Proof.
  split; [|split].
  - intros p p' Hs Hk. destruct Hs.
    + cbn. split.
      * apply keys_ok_new; [exact Hk | exact H | reflexivity].
      * apply adv_statuses, adv_set. cbn. intros c Hc. congruence.
    + destruct (handlePayment_flow now env pay p Hk) as [K A].
      split; [exact K | apply adv_statuses, A].
    + destruct (sweep_flow (charges p) cid now env p (conj Hk (adv_refl _))) as [K A].
      split; [exact K | apply adv_statuses, A].
    + destruct (checkExpiredCharges_flow now p Hk) as [K A].
      split; [exact K | apply adv_statuses, A].
    + destruct (checkMissedPayments_flow now renv p Hk) as [K A].
      split; [exact K | apply adv_statuses, A].
    + unfold deleteCharge. destruct (map_get cid (charges p)) as [c|] eqn:Hg;
        [|split; [exact Hk | apply adv_statuses, adv_refl]].
      destruct (_ && _); cbn; [split; [exact Hk | apply adv_statuses, adv_refl]|].
      split; [apply keys_ok_filter, Hk|].
      intros k c1 c2 H1 H2. change (map_get k (map_delete cid (charges p)) = Some c2) in H2.
      rewrite map_get_delete in H2. destruct (String.eqb k cid); [discriminate|].
      rewrite H1 in H2. injection H2 as <-. apply advances_refl.
    + unfold cleanupSweptCharges. split.
      * destruct (0 <? _); cbn; apply keys_ok_filter, Hk.
      * intros k c1 c2 H1 H2. assert (H3 : map_get k (charges p) = Some c2).
        { destruct (0 <? _); cbn in H2; exact (map_get_filter _ _ _ _ (proj1 Hk) H2). }
        rewrite H1 in H3. injection H3 as <-. apply advances_refl.
    + unfold flushTimer. destruct (saveDebounceTimer p); cbn;
        (split; [exact Hk | apply adv_statuses, adv_refl]).
  - intros p p' Hr Hk. exact (proj2 (flow_star p p' Hr Hk)).
  - intros cid now env p c Hg Hs Hr Hb Hh. unfold sweepCharge. rewrite Hg.
    rewrite (status_eqb_false _ _ Hs), Hr. apply Z.eqb_neq in Hb. rewrite Hb. cbn.
    destruct (sendResult env) as [h|]; [|contradiction]. cbn.
    destruct (_ && _); [unfold callWebhook; cbn;
      destruct (negb _); [|destruct (webhook_payload _ _ _ _); [destruct (webhookResponse env)|]]|];
      cbn; rewrite ?map_get_set_same; eexists; split; reflexivity.
Qed.

(** ** Sub-account allocation *)

Lemma sweep_next (cid : string) (now : Z) (env : SweepEnv) (p : Processor) :
  (state_of (sweepCharge cid now env p)).(nextAccountIndex) = p.(nextAccountIndex).
Proof.
  unfold sweepCharge.
  destruct (map_get cid (charges p)) as [c|]; [|reflexivity].
  destruct (status_eqb (status c) swept); [reflexivity|].
  destruct (receivePendingOk env); cbn [negb]; [|reflexivity].
  destruct (balance env =? 0); [reflexivity|].
  destruct (sendResult env) as [h|]; [|reflexivity].
  destruct (_ && _); [|reflexivity].
  unfold callWebhook. destruct (negb _); [reflexivity|].
  destruct (webhook_payload _ _ _ _); [|reflexivity].
  destruct (webhookResponse env); reflexivity.
Qed.

Lemma handlePayment_next (now : Z) (env : SweepEnv) (pay : PaymentEvent) (p : Processor) :
  (handlePayment now env pay p).(nextAccountIndex) = p.(nextAccountIndex).
Proof.
  unfold handlePayment.
  destruct (chargeByAddress (pay_to pay) p) as [[cid c]|]; [|reflexivity].
  destruct (status c); try reflexivity;
    (destruct (amountRaw _ <=? receivedRaw _);
     [ match goal with |- context [if ?b then _ else _] => destruct b end;
       [rewrite sweep_next|]; reflexivity
     | reflexivity ]).
Qed.

Lemma recover_blocks_next (now : Z) (cid : string) (pend : list (PendingBlock * bool))
    (c : Charge) (p : Processor) :
  (snd (recover_blocks now cid pend c p)).(nextAccountIndex) = p.(nextAccountIndex).
Proof.
  revert c p. induction pend as [|[pb ok] pend IH]; intros c p; simpl; [reflexivity|].
  destruct ok; rewrite IH; reflexivity.
Qed.

Lemma recover_charge_next (now : Z) (cid : string) (pend : list (PendingBlock * bool))
    (env : SweepEnv) (p : Processor) :
  (recover_charge now cid pend env p).(nextAccountIndex) = p.(nextAccountIndex).
Proof.
  unfold recover_charge. destruct (map_get cid (charges p)) as [c|]; [|reflexivity].
  destruct pend as [|b pend']; [reflexivity|].
  pose proof (recover_blocks_next now cid (b :: pend') c (emit "recovery:found" cid p)) as E.
  destruct (recover_blocks now cid (b :: pend') c (emit "recovery:found" cid p)) as [c1 p1].
  cbn [fst snd] in *.
  destruct (amountRaw c1 <=? receivedRaw c1).
  - match goal with |- context [if ?b then _ else _] => destruct b end.
    + match goal with |- context [sweepCharge ?i ?n ?e ?q] =>
        pose proof (sweep_next i n e q) as Hs; destruct (sweepCharge i n e q) end;
      cbn in *; rewrite Hs; exact E.
    + exact E.
  - destruct (0 <? _); exact E.
Qed.

Lemma checkMissedPayments_next (now : Z) (renv : RecoveryEnv) (p : Processor) :
  (checkMissedPayments now renv p).(nextAccountIndex) = p.(nextAccountIndex).
Proof.
  unfold checkMissedPayments. generalize (active_ids p). intros l. revert p.
  induction l as [|cid l IH]; intros p; simpl; [reflexivity|].
  rewrite IH. apply recover_charge_next.
Qed.

Lemma checkExpiredCharges_next (now : Z) (p : Processor) :
  (fst (checkExpiredCharges now p)).(nextAccountIndex) = p.(nextAccountIndex).
Proof.
  unfold checkExpiredCharges.
  assert (G : forall l acc, (fst (fst (fold_left (expire_one now) l acc))).(nextAccountIndex) =
                            (fst (fst acc)).(nextAccountIndex)).
  { induction l as [|cid l IH]; intros [[q ch] sp]; simpl; [reflexivity|].
    rewrite IH. unfold expire_one.
    destruct (map_get cid (charges q)) as [c|]; [|reflexivity].
    destruct (_ && _); [|reflexivity].
    destruct (_ && _); reflexivity. }
  specialize (G (map fst (charges p)) (p, false, [])).
  destruct (fold_left (expire_one now) (map fst (charges p)) (p, false, [])) as [[q ch] sp].
  destruct ch; exact G.
Qed.

Lemma step_next (p p' : Processor) :
  step p p' -> p'.(nextAccountIndex) = p.(nextAccountIndex) \/
               p'.(nextAccountIndex) = p.(nextAccountIndex) + 1.
Proof.
  intros Hs. destruct Hs.
  - right. reflexivity.
  - left. apply handlePayment_next.
  - left. apply sweep_next.
  - left. apply checkExpiredCharges_next.
  - left. apply checkMissedPayments_next.
  - left. unfold deleteCharge. destruct (map_get cid (charges p)); [|reflexivity].
    destruct (_ && _); reflexivity.
  - left. unfold cleanupSweptCharges. destruct (0 <? _); reflexivity.
  - left. unfold flushTimer. destruct (saveDebounceTimer p); reflexivity.
Qed.

Lemma createCharges_spec (reqs : list (string * Z * CreateChargeOptions)) (p : Processor) :
  length (fst (createCharges reqs p)) = length reqs /\
  (forall i c, nth_error (fst (createCharges reqs p)) i = Some c ->
     c.(accountIndex) = p.(nextAccountIndex) + Z.of_nat i /\
     c.(address) = deriveAccount c.(accountIndex)) /\
  (snd (createCharges reqs p)).(nextAccountIndex) =
    p.(nextAccountIndex) + Z.of_nat (length reqs).
Proof.
  revert p. induction reqs as [|[[cid now] o] reqs IH]; intros p;
    cbn [createCharges fst snd length].
  - split; [reflexivity|]. split; [intros [|i] c H; discriminate | lia].
  - destruct (IH (snd (createCharge cid now o p))) as (L & N & X).
    rewrite X, L. split; [reflexivity|]. split.
    + intros [|i] c H; cbn [nth_error] in H.
      * injection H as <-. cbn. split; [lia | reflexivity].
      * destruct (N i c H) as [N1 N2]. split; [rewrite N1; cbn; lia | exact N2].
    + cbn. lia.
Qed.

(** C9: creating charges in sequence gives one charge per call; the i-th
    gets the sub-account index [nextAccountIndex + i] (so the indices
    strictly increase) and the address derived from it; the counter ends
    advanced by the number of calls; the addresses are pairwise distinct
    when [deriveAccount] is injective.  Each [createCharge] takes the
    current counter and advances it by one, and every other operation
    leaves the counter unchanged, so no two calls share an index. *)
Theorem createCharges_allocation :
  (forall reqs p,
     length (fst (createCharges reqs p)) = length reqs /\
     (forall i c, nth_error (fst (createCharges reqs p)) i = Some c ->
        c.(accountIndex) = p.(nextAccountIndex) + Z.of_nat i /\
        c.(address) = deriveAccount c.(accountIndex)) /\
     (forall i j ci cj, (i < j)%nat ->
        nth_error (fst (createCharges reqs p)) i = Some ci ->
        nth_error (fst (createCharges reqs p)) j = Some cj ->
        ci.(accountIndex) < cj.(accountIndex)) /\
     (snd (createCharges reqs p)).(nextAccountIndex) =
       p.(nextAccountIndex) + Z.of_nat (length reqs) /\
     ((forall i j, deriveAccount i = deriveAccount j -> i = j) ->
        NoDup (map address (fst (createCharges reqs p))))) /\
  (forall cid now o p,
     (fst (createCharge cid now o p)).(accountIndex) = p.(nextAccountIndex) /\
     (snd (createCharge cid now o p)).(nextAccountIndex) = p.(nextAccountIndex) + 1) /\
  (forall p p', step p p' ->
     p'.(nextAccountIndex) = p.(nextAccountIndex) \/
     p'.(nextAccountIndex) = p.(nextAccountIndex) + 1).
Proof.
  split; [|split; [intros; split; reflexivity | exact step_next]].
  intros reqs p. destruct (createCharges_spec reqs p) as (L & N & X).
  split; [exact L|]. split; [exact N|]. split; [|split; [exact X|]].
  - intros i j ci cj Hij Hi Hj.
    rewrite (proj1 (N i ci Hi)), (proj1 (N j cj Hj)). lia.
  - intros Hinj. apply NoDup_nth_error. intros i j Hi Heq.
    rewrite length_map in Hi.
    destruct (nth_error (fst (createCharges reqs p)) i) as [ci|] eqn:Ei;
      [|apply nth_error_None in Ei; lia].
    rewrite !nth_error_map, Ei in Heq.
    destruct (nth_error (fst (createCharges reqs p)) j) as [cj|] eqn:Ej; [|discriminate].
    cbn in Heq. injection Heq as Heq.
    destruct (N i ci Ei) as [I1 A1]. destruct (N j cj Ej) as [I2 A2].
    rewrite A1, A2 in Heq. apply Hinj in Heq. rewrite I1, I2 in Heq. lia.
Qed.

(** ** The persisted snapshot *)

(** [BigInt(x.toString())] is [x] *)
Lemma parse_dec_dec (z : Z) : parse_dec (dec z) = Some z.
Proof.
  unfold parse_dec, dec. pose proof (DecimalZ.of_to z) as H. revert H.
  generalize (Z.to_int z). intros d H.
  destruct d as [u|u]; destruct u;
    try (rewrite NilZero.isi by discriminate; cbn; exact (f_equal Some H));
    cbn in H |- *; subst; reflexivity.
Qed.

Lemma dec_nonempty (z : Z) : dec z <> "".
Proof. unfold dec. destruct (Z.to_int z) as [u|u]; destruct u; cbn; discriminate. Qed.

Section Roundtrip.

Hypothesis parse_iso : forall t, Z.abs t <= maxTime -> date_parse (toISOString t) = Some t.
Hypothesis iso_nonempty : forall t, Z.abs t <= maxTime -> toISOString t <> "".

Lemma new_Date_json (d : Date) :
  valid_date d = true -> new_Date (Some (date_json d)) = d.
Proof.
  destruct d as [t|]; [|discriminate]. cbn. intros H. apply Z.leb_le in H. apply parse_iso, H.
Qed.

Lemma truthy_date_json (d : Date) :
  valid_date d = true -> js_truthy (Some (date_json d)) = true.
Proof.
  destruct d as [t|]; [|discriminate]. cbn. intros H. apply Z.leb_le in H.
  pose proof (iso_nonempty t H) as E. apply String.eqb_neq in E. rewrite E. reflexivity.
Qed.

Lemma load_tx_json (t : Tx.t) :
  valid_date t.(Tx.timestamp) = true -> load_tx (tx_json t) = Some t.
Proof.
  intros H. destruct t as [h f a n ts]. unfold load_tx, tx_json, get_raw, get_string.
  cbn -[parse_dec dec new_Date date_json]. rewrite parse_dec_dec.
  cbn in H. rewrite (new_Date_json ts H). reflexivity.
Qed.

Lemma load_txs_json (l : list Tx.t) :
  forallb (fun t => valid_date t.(Tx.timestamp)) l = true ->
  map_option load_tx (map tx_json l) = Some l.
Proof.
  induction l as [|t l IH]; cbn -[load_tx tx_json]; [reflexivity|].
  intros H. apply andb_true_iff in H as [H1 H2].
  rewrite (load_tx_json t H1), (IH H2). reflexivity.
Qed.

Lemma load_charge_json (c : Charge) :
  dates_valid c = true -> load_charge (charge_json c) = Some c.
Proof.
  intros H. unfold dates_valid in H. rewrite !andb_true_iff in H.
  destruct H as ((((Hc & He) & Hca) & Hsa) & Ht).
  destruct c as [i a ai ar an rr rn st txs ca ea coa swa sh wu ws md]; cbn in *.
  unfold load_charge, charge_json, get_raw, get_string, get_num, get_opt_string,
    get_opt_bool.
  destruct coa as [d1|], swa as [d2|], sh as [s1|], wu as [s2|], ws as [b|], md as [m|];
    cbn -[parse_dec dec new_Date date_json js_truthy map_option load_tx tx_json];
    rewrite !parse_dec_dec; destruct st;
    cbn -[parse_dec dec new_Date date_json js_truthy map_option load_tx tx_json];
    rewrite (load_txs_json txs Ht), (new_Date_json ca Hc), (new_Date_json ea He);
    rewrite ?(truthy_date_json d1 Hca), ?(truthy_date_json d2 Hsa),
      ?(new_Date_json d1 Hca), ?(new_Date_json d2 Hsa); reflexivity.
Qed.

Lemma load_charges_json (l : list Charge) :
  Forall (fun c => dates_valid c = true) l ->
  map_option load_charge (map charge_json l) = Some l.
Proof.
  induction l as [|c l IH]; intros H; cbn -[load_charge charge_json]; [reflexivity|].
  inversion H as [|? ? H1 H2]; subst. rewrite (load_charge_json c H1), (IH H2). reflexivity.
Qed.

Lemma load_save (st : PersistedState) :
  Forall (fun c => dates_valid c = true) st.(ps_charges) ->
  loadPersistedState (savePersistedState st) = Some st.
Proof.
  intros H. destruct st as [n cs u]. cbn in H.
  unfold loadPersistedState, savePersistedState, state_json, get_num, get_string.
  cbn -[map_option load_charge charge_json]. rewrite (load_charges_json cs H). reflexivity.
Qed.

End Roundtrip.

Lemma load_maps_fold (l acc : list (string * Charge)) (aidx : list (string * string)) :
  NoDup (map fst (acc ++ l)) -> Forall (fun kv => (snd kv).(id) = fst kv) l ->
  fst (fold_left (fun acc c => (map_set c.(id) c (fst acc), map_set c.(address) c.(id) (snd acc)))
         (map snd l) (acc, aidx)) = acc ++ l.
Proof.
  revert acc aidx. induction l as [|[k c] l IH]; intros acc aidx Hn Hf; cbn.
  - rewrite app_nil_r. reflexivity.
  - inversion Hf as [|? ? Hc Hf']; subst. cbn in Hc. rewrite Hc.
    assert (Hk : map_get k acc = None).
    { destruct (map_get k acc) as [v|] eqn:E; [|reflexivity]. exfalso.
      apply map_get_In in E. rewrite map_app in Hn. cbn in Hn.
      apply NoDup_remove_2 in Hn. apply Hn, in_or_app. left.
      apply (in_map fst) in E. exact E. }
    rewrite (map_set_absent _ _ _ Hk). rewrite IH; [rewrite <- app_assoc; reflexivity| |exact Hf'].
    rewrite <- app_assoc. exact Hn.
Qed.

(** C8 (corrected): when [Date.parse] reads back what [toISOString] writes,
    loading a saved snapshot whose dates are all valid time values gives back
    the same snapshot (next index, update time and the charge list with all
    fields); and the constructor reading the file written by
    [persistStateNow] rebuilds the same charge map and next index. *)
Theorem persist_roundtrip
    (parse_iso : forall t, Z.abs t <= maxTime -> date_parse (toISOString t) = Some t)
    (iso_nonempty : forall t, Z.abs t <= maxTime -> toISOString t <> "") :
  (forall st, Forall (fun c => dates_valid c = true) st.(ps_charges) ->
     loadPersistedState (savePersistedState st) = Some st) /\
  (forall cfg now p, keys_ok p.(charges) ->
     Forall (fun kc => dates_valid (snd kc) = true) p.(charges) ->
     (construct cfg (persistStateNow now p).(disk)).(charges) = p.(charges) /\
     (construct cfg (persistStateNow now p).(disk)).(nextAccountIndex) =
       p.(nextAccountIndex)).
Proof.
  split; [exact (load_save parse_iso iso_nonempty)|].
  intros cfg now p [Hn Hf] Hv. unfold construct. cbn [disk persistStateNow set_persist].
  rewrite (load_save parse_iso iso_nonempty); [| cbn; apply Forall_map, Hv].
  cbn. split; [|reflexivity].
  apply (load_maps_fold _ [] []); [exact Hn | exact Hf].
Qed.

(** ** The address index after a restart *)

Lemma map_get_set_keeps {V} (k k' : string) (v : V) (m : list (string * V)) :
  map_get k m <> None -> map_get k (map_set k' v m) <> None.
Proof. rewrite map_get_set. destruct (String.eqb k k'); [discriminate | exact (fun H => H)]. Qed.

Lemma load_maps_addresses (l : list Charge) (acc : list (string * Charge) * list (string * string))
    (c : Charge) :
  In c l ->
  map_get c.(address)
    (snd (fold_left (fun acc c => (map_set c.(id) c (fst acc), map_set c.(address) c.(id) (snd acc)))
            l acc)) <> None.
Proof.
  assert (G : forall l acc, map_get c.(address) (snd acc) <> None ->
            map_get c.(address)
              (snd (fold_left (fun acc c => (map_set c.(id) c (fst acc),
                                             map_set c.(address) c.(id) (snd acc))) l acc)) <> None).
  { induction l0 as [|c1 l0 IH]; intros acc0 H; cbn; [exact H|].
    apply IH. cbn. apply map_get_set_keeps, H. }
  revert acc. induction l as [|c1 l IH]; intros acc Hi; [destruct Hi|].
  destruct Hi as [<-|Hi]; cbn.
  - apply G. cbn. rewrite map_get_set_same. discriminate.
  - apply IH, Hi.
Qed.

(** C3 (the constructor): every charge of the loaded snapshot, a [swept]
    one included, has its address registered in the address index of the
    constructed processor. *)
Theorem construct_registers_swept (cfg : ProcessorConfig) (file : option json)
    (st : PersistedState) (c : Charge) :
  loadPersistedState file = Some st -> In c st.(ps_charges) -> c.(status) = swept ->
  exists cid, map_get c.(address) (construct cfg file).(addressToChargeId) = Some cid.
Proof.
  intros Hl Hi _. unfold construct. rewrite Hl. cbn [addressToChargeId].
  unfold load_maps.
  destruct (map_get c.(address) _) as [cid|] eqn:E; [exists cid; reflexivity|].
  exfalso. exact (load_maps_addresses _ _ c Hi E).
Qed.

(** ** Further properties: charge ids, queries, import and export *)

Lemma unhex_byte_hex (b : Byte.byte) :
  unhex_byte (hex_digit (Nat.div (Byte.to_nat b) 16)) (hex_digit (Nat.modulo (Byte.to_nat b) 16))
  = Some b.
Proof. destruct b; reflexivity. Qed.

Lemma unhex_hex_string (bs : list Byte.byte) : unhex (hex_string bs) = Some bs.
Proof.
  induction bs as [|b bs IH]; [reflexivity|].
  cbn [hex_string]. unfold byte_hex. cbn [append unhex].
  rewrite unhex_byte_hex, IH. reflexivity.
Qed.

Lemma hex_string_length (bs : list Byte.byte) :
  String.length (hex_string bs) = (2 * length bs)%nat.
Proof.
  induction bs as [|b bs IH]; [reflexivity|].
  cbn [hex_string]. unfold byte_hex. cbn [append String.length length]. rewrite IH. lia.
Qed.

Lemma substring_all (s : string) : String.substring 0 (String.length s) s = s.
Proof. induction s as [|a s IH]; [reflexivity|]. cbn. rewrite IH. reflexivity. Qed.

(** X1: a charge id is "chg_" followed by two hex digits per random byte:
    28 characters for the 12 bytes [createCharge] draws. *)
Theorem generateChargeId_shape (bytes : list Byte.byte) :
  String.substring 0 4 (generateChargeId bytes) = "chg_" /\
  String.length (generateChargeId bytes) = (4 + 2 * length bytes)%nat /\
  unhex (String.substring 4 (2 * length bytes) (generateChargeId bytes)) = Some bytes.
Proof.
  unfold generateChargeId. split; [cbn; destruct (hex_string bytes); reflexivity|]. split.
  - cbn [append String.length]. rewrite hex_string_length. lia.
  - cbn [append String.substring]. rewrite <- hex_string_length, substring_all.
    apply unhex_hex_string.
Qed.

(** X2: distinct random bytes give distinct charge ids. *)
Theorem generateChargeId_injective (a b : list Byte.byte) :
  generateChargeId a = generateChargeId b -> a = b.
Proof.
  unfold generateChargeId. cbn [append]. intros H. injection H as H.
  apply (f_equal unhex) in H. rewrite !unhex_hex_string in H. injection H as H. exact H.
Qed.

Lemma status_str_eqb (a b : ChargeStatus) :
  String.eqb (status_str a) (status_str b) = status_eqb a b.
Proof. destruct a, b; reflexivity. Qed.

Lemma parse_status_None (s : string) (st : ChargeStatus) :
  parse_status s = None -> String.eqb (status_str st) s = false.
Proof.
  intros H. destruct (String.eqb_spec (status_str st) s) as [E|E]; [|reflexivity].
  subst s. destruct st; discriminate H.
Qed.

(** X3: [listCharges] with a string that names no status returns no charge
    (the CLI prints "No charges found" for a mistyped [--status]); the empty
    string is falsy and returns every charge. *)
Theorem listCharges_unknown_status (s : string) (p : Processor) :
  parse_status s = None ->
  listCharges (Some s) p = if String.eqb s "" then exportCharges p else [].
Proof.
  intros H. unfold listCharges, exportCharges. destruct (String.eqb s ""); [reflexivity|].
  induction (map snd (charges p)) as [|c l IH]; [reflexivity|].
  cbn. rewrite (parse_status_None s (status c) H). exact IH.
Qed.

(** X4: [listCharges(status)] returns exactly the charges with that status,
    [listActiveCharges] exactly the [pending] and [partial] ones, and the
    number of active charges is the number of [pending] plus the number of
    [partial] charges. *)
Theorem listCharges_members (p : Processor) (c : Charge) (st : ChargeStatus) :
  (In c (listCharges (Some (status_str st)) p) <->
     In c (exportCharges p) /\ c.(status) = st) /\
  (In c (listActiveCharges p) <-> In c (exportCharges p) /\ is_active c.(status) = true) /\
  length (listActiveCharges p) =
    (length (listCharges (Some "pending") p) + length (listCharges (Some "partial") p))%nat.
Proof.
  unfold listActiveCharges, listCharges, exportCharges. split; [|split].
  - replace (String.eqb (status_str st) "") with false by (destruct st; reflexivity).
    rewrite filter_In, status_str_eqb, status_eqb_true. reflexivity.
  - rewrite filter_In. destruct (status c); cbn; intuition congruence.
  - cbn. induction (map snd (charges p)) as [|c' l IH]; [reflexivity|].
    cbn. destruct (status c'); cbn; lia.
Qed.

(** X5: when every charge is stored under its own id, the ids of
    [listActiveCharges()] are, in order, the keys of the active charges,
    the charges the recovery loop visits. *)
Theorem listActiveCharges_ids (p : Processor) :
  keys_ok p.(charges) -> map id (listActiveCharges p) = active_ids p.
Proof.
  unfold listActiveCharges, listCharges, active_ids. intros [_ Hf].
  induction (charges p) as [|[k c] m IH]; [reflexivity|].
  inversion_clear Hf as [|? ? H1 H2]. cbn in H1 |- *.
  destruct (status c); cbn; rewrite ?H1, ?(IH H2); reflexivity.
Qed.

Lemma In_set_add (a b : string) (l : list string) : In a (set_add b l) <-> a = b \/ In a l.
Proof.
  unfold set_add. destruct (existsb (String.eqb b) l) eqn:E.
  - apply existsb_exists in E as (x & Hx & Ex). apply String.eqb_eq in Ex. subst x.
    intuition congruence.
  - rewrite in_app_iff. cbn. intuition congruence.
Qed.

(** X6: a charge created with an id from [generateChargeId] is found
    by [getCharge] under that id and by [getChargeByAddress] under the
    address derived from the next sub-account index; the address is watched;
    the charge is [pending] with nothing received; the index advances by
    one; the file is not written, the debounced save is armed. *)
Theorem createCharge_registers (bytes : list Byte.byte) (now : Z) (o : CreateChargeOptions)
    (p : Processor) :
  let cid := generateChargeId bytes in
  let r := createCharge cid now o p in
  getCharge cid (snd r) = Some (fst r) /\
  getChargeByAddress (deriveAccount p.(nextAccountIndex)) (snd r) = Some (fst r) /\
  In (deriveAccount p.(nextAccountIndex)) (snd r).(monitored) /\
  (fst r).(status) = pending /\ (fst r).(receivedRaw) = 0 /\ (fst r).(transactions) = [] /\
  (snd r).(nextAccountIndex) = p.(nextAccountIndex) + 1 /\
  (snd r).(disk) = p.(disk) /\ (snd r).(saveDebounceTimer) = true.
Proof.
  cbv zeta. unfold createCharge, getCharge, getChargeByAddress, chargeByAddress. cbn.
  rewrite !map_get_set_same. unfold generateChargeId. cbn [append String.eqb].
  rewrite ?map_get_set_same.
  repeat split; try reflexivity. apply In_set_add. left. reflexivity.
Qed.

Lemma fold_pending_sum (l : list PendingBlock) (z : Z) :
  fold_left (fun s pb => s + pb.(pb_amount)) l z =
  z + fold_right (fun pb s => pb.(pb_amount) + s) 0 l.
Proof. revert z. induction l as [|pb l IH]; intros z; cbn; [lia|]. rewrite IH. lia. Qed.

(** X7: [checkChargeStatus] changes nothing; it counts the on-chain balance
    plus the pending blocks, not the charge's recorded [receivedRaw]; the
    remaining amount is [max 0 (amountRaw - total)] and the charge is paid
    exactly when nothing remains. *)
Theorem checkChargeStatus_remaining (cid : string) (pend : list PendingBlock) (bal : Z)
    (p : Processor) (c : Charge) :
  map_get cid p.(charges) = Some c ->
  exists paid rem, checkChargeStatus cid pend bal p = Ok (paid, rem) p /\
    rem = Z.max 0 (c.(amountRaw) - (bal + fold_right (fun pb s => pb.(pb_amount) + s) 0 pend)) /\
    (paid = true <-> rem = 0).
Proof.
  intros H. unfold checkChargeStatus. rewrite H, fold_pending_sum. cbn [Z.add].
  eexists _, _. split; [reflexivity|].
  set (t := bal + (0 + fold_right (fun pb s => pb_amount pb + s) 0 pend)).
  replace (bal + fold_right (fun pb s => pb_amount pb + s) 0 pend) with t by (unfold t; lia).
  destruct (Z.ltb_spec t (amountRaw c)); destruct (Z.leb_spec (amountRaw c) t);
    (split; [lia|]); split; intros; (lia || reflexivity || discriminate).
Qed.

Lemma filter_length_split {A} (f : A -> bool) (l : list A) :
  (length (filter f l) + length (filter (fun x => negb (f x)) l))%nat = length l.
Proof. induction l as [|a l IH]; [reflexivity|]. cbn. destruct (f a); cbn; lia. Qed.

Lemma map_get_filter_iff {V} (f : string * V -> bool) (m : list (string * V)) (k : string) (v : V) :
  NoDup (map fst m) ->
  map_get k (filter f m) = Some v <-> map_get k m = Some v /\ f (k, v) = true.
Proof.
  intros Hn. split.
  - intros H. split; [exact (map_get_filter f m k v Hn H)|].
    apply map_get_In, filter_In in H as [_ H]. exact H.
  - intros [H Hf]. apply NoDup_get; [apply NoDup_map_fst_filter, Hn|].
    apply filter_In. split; [apply map_get_In, H | exact Hf].
Qed.

(** X8: [cleanupSweptCharges] returns the number of [swept] charges and
    removes exactly those, keeping every other charge under its key; it
    leaves the address index and the watched addresses alone and arms the
    debounced save only when it removed something. *)
Theorem cleanupSweptCharges_removes_swept (p : Processor) :
  NoDup (map fst p.(charges)) ->
  let r := cleanupSweptCharges p in
  fst r = Z.of_nat (length (filter (fun kc => status_eqb (snd kc).(status) swept) p.(charges))) /\
  (forall k c, map_get k (snd r).(charges) = Some c <->
     map_get k p.(charges) = Some c /\ c.(status) <> swept) /\
  (snd r).(addressToChargeId) = p.(addressToChargeId) /\
  (snd r).(monitored) = p.(monitored) /\
  (snd r).(disk) = p.(disk) /\
  (snd r).(saveDebounceTimer) = (0 <? fst r) || p.(saveDebounceTimer).
Proof.
  intros Hn. cbv zeta. unfold cleanupSweptCharges. cbv zeta.
  pose proof (filter_length_split (fun kc => status_eqb (snd kc).(status) swept) p.(charges)) as L.
  assert (Hc : (length (charges p) -
                length (filter (fun kc => negb (status_eqb (snd kc).(status) swept)) (charges p))
               = length (filter (fun kc => status_eqb (snd kc).(status) swept) (charges p)))%nat)
    by lia.
  rewrite Hc. cbn [fst snd]. split; [reflexivity|].
  split.
  - intros k c. destruct (0 <? _); cbn; rewrite map_get_filter_iff by exact Hn; cbn;
      rewrite negb_true_iff; split; intros [H1 H2]; split; auto;
      [ intros E; rewrite E in H2; discriminate | apply status_eqb_false; exact H2
      | intros E; rewrite E in H2; discriminate | apply status_eqb_false; exact H2 ].
  - destruct (0 <? _); cbn; repeat split.
Qed.

Lemma import_one_fields (p : Processor) (c : Charge) :
  (import_one p c).(nextAccountIndex) = p.(nextAccountIndex) /\
  (import_one p c).(disk) = p.(disk) /\
  (import_one p c).(saveDebounceTimer) = p.(saveDebounceTimer) /\
  (import_one p c).(events) = p.(events) /\
  (import_one p c).(ledgerSends) = p.(ledgerSends) /\
  (import_one p c).(charges) = map_set c.(id) c p.(charges) /\
  (forall a, In a (import_one p c).(monitored) <->
     In a p.(monitored) \/ (c.(address) = a /\ is_active c.(status) = true)).
Proof.
  unfold import_one. destruct (status c); cbn; (repeat split);
    rewrite ?In_set_add; intuition congruence.
Qed.

Lemma importCharges_keeps_key (cs : list Charge) (p : Processor) (k : string) :
  map_get k p.(charges) <> None -> map_get k (importCharges cs p).(charges) <> None.
Proof.
  unfold importCharges. revert p. induction cs as [|c cs IH]; intros p H; [exact H|].
  cbn [fold_left]. apply IH. rewrite (proj1 (proj2 (proj2 (proj2 (proj2 (proj2
    (import_one_fields p c))))))), map_get_set.
  destruct (String.eqb k (id c)); [discriminate | exact H].
Qed.

(** X9: [importCharges] stores every given charge and watches the address
    of each [pending] or [partial] one, and nothing else: it does not
    advance [nextAccountIndex], does not write the file or arm the
    debounced save, emits no event and sends nothing. *)
Theorem importCharges_effects (cs : list Charge) (p : Processor) :
  let p' := importCharges cs p in
  p'.(nextAccountIndex) = p.(nextAccountIndex) /\
  p'.(disk) = p.(disk) /\
  p'.(saveDebounceTimer) = p.(saveDebounceTimer) /\
  p'.(events) = p.(events) /\
  p'.(ledgerSends) = p.(ledgerSends) /\
  (forall c, In c cs -> map_get c.(id) p'.(charges) <> None) /\
  (forall a, In a p'.(monitored) <->
     In a p.(monitored) \/ exists c, In c cs /\ c.(address) = a /\ is_active c.(status) = true).
Proof.
  cbv zeta. revert p.
  induction cs as [|c cs IH]; intros p.
  - refine (conj eq_refl (conj eq_refl (conj eq_refl (conj eq_refl (conj eq_refl (conj _ _))))));
      [intros ? [] | intros a; split; [intros H; left; exact H | intros [H|(? & [] & _)]; exact H]].
  - destruct (import_one_fields p c) as (E1 & E2 & E3 & E4 & E5 & E6 & E7).
    destruct (IH (import_one p c)) as (F1 & F2 & F3 & F4 & F5 & F6 & F7).
    change (importCharges (c :: cs) p) with (importCharges cs (import_one p c)).
    rewrite F1, F2, F3, F4, F5, E1, E2, E3, E4, E5.
    refine (conj eq_refl (conj eq_refl (conj eq_refl (conj eq_refl (conj eq_refl (conj _ _))))));
      [| intros a; split].
    + intros c' [<-|Hi]; [|exact (F6 c' Hi)].
      apply importCharges_keeps_key. rewrite E6, map_get_set_same. discriminate.
    + rewrite F7, E7. intros [[H|[H1 H2]]|(c' & Hi & H1 & H2)]; [left; exact H | |].
      * right. exists c. cbn. auto.
      * right. exists c'. cbn. auto.
    + rewrite F7, E7. intros [H|(c' & [<-|Hi] & H1 & H2)]; [left; left; exact H | left; right; auto |].
      right. exists c'. auto.
Qed.

(** X10: [importCharges] does not move [nextAccountIndex] past the imported
    charges: when an imported charge holds the next sub-account index (its
    address derived from it), the next [createCharge] takes that index and
    address again; the address then points to the new charge while the
    imported one is still stored, so two charges share one sub-account. *)
Theorem importCharges_index_reuse (cs : list Charge) (p : Processor) (c : Charge)
    (cid : string) (now : Z) (o : CreateChargeOptions) :
  In c cs -> c.(accountIndex) = p.(nextAccountIndex) ->
  c.(address) = deriveAccount c.(accountIndex) -> cid <> c.(id) ->
  let r := createCharge cid now o (importCharges cs p) in
  (fst r).(accountIndex) = c.(accountIndex) /\ (fst r).(address) = c.(address) /\
  map_get c.(address) (snd r).(addressToChargeId) = Some cid /\
  map_get c.(id) (snd r).(charges) <> None.
Proof.
  intros Hi Hx Ha Hne. cbv zeta.
  destruct (importCharges_effects cs p) as (F1 & _ & _ & _ & _ & F6 & _).
  unfold createCharge. cbn -[importCharges].
  rewrite F1, <- Hx, <- Ha, map_get_set_same. split; [reflexivity|]. split; [reflexivity|].
  split; [reflexivity|].
  rewrite map_get_set. apply String.eqb_neq in Hne. rewrite String.eqb_sym, Hne.
  exact (F6 c Hi).
Qed.

Lemma notin_map_get {V} (m : list (string * V)) (k : string) :
  ~ In k (map fst m) -> map_get k m = None.
Proof.
  intros H. destruct (map_get k m) as [v|] eqn:E; [|reflexivity].
  exfalso. apply H. exact (in_map fst _ _ (map_get_In _ _ _ E)).
Qed.

Lemma import_map_snd (m acc : list (string * Charge)) (q : Processor) :
  NoDup (map fst (acc ++ m)) -> Forall (fun kv => (snd kv).(id) = fst kv) m ->
  q.(charges) = acc -> (importCharges (map snd m) q).(charges) = acc ++ m.
Proof.
  revert acc q. induction m as [|[k c] m IH]; intros acc q Hn Hf Hq.
  - rewrite app_nil_r. exact Hq.
  - inversion_clear Hf as [|? ? H1 H2]. cbn in H1.
    change (importCharges (map snd ((k, c) :: m)) q)
      with (importCharges (map snd m) (import_one q c)).
    replace (acc ++ (k, c) :: m) with ((acc ++ [(k, c)]) ++ m) in * by (rewrite <- app_assoc; reflexivity).
    apply IH; [exact Hn | exact H2 |].
    rewrite (proj1 (proj2 (proj2 (proj2 (proj2 (proj2 (import_one_fields q c))))))), Hq, H1.
    apply map_set_absent, notin_map_get.
    rewrite !map_app in Hn. apply NoDup_app_remove_r in Hn.
    apply NoDup_remove_2 in Hn. rewrite app_nil_r in Hn. exact Hn.
Qed.

(** X11: exporting the charges of a processor whose charges are stored
    under their own ids and importing them into a processor with no charge
    rebuilds the same charge map, in the same order. *)
Theorem export_import_roundtrip (p q : Processor) :
  keys_ok p.(charges) -> q.(charges) = [] ->
  (importCharges (exportCharges p) q).(charges) = p.(charges).
Proof.
  intros [Hn Hf] Hq. apply (import_map_snd (charges p) [] q); [exact Hn | exact Hf | exact Hq].
Qed.

(** ** Further properties: payments, expiry, start-up *)

(** X12: a payment to an address with no charge, or to a charge that is
    [completed], [expired] or [swept], changes nothing: it is not recorded
    and no event is emitted. *)
Theorem handlePayment_ignored (now : Z) (env : SweepEnv) (pay : PaymentEvent) (p : Processor) :
  (forall cid c, chargeByAddress pay.(pay_to) p = Some (cid, c) -> is_active c.(status) = false) ->
  handlePayment now env pay p = p.
Proof.
  intros H. unfold handlePayment.
  destruct (chargeByAddress (pay_to pay) p) as [[cid c]|] eqn:E; [|reflexivity].
  specialize (H cid c eq_refl). destruct (status c); try reflexivity; discriminate H.
Qed.


(** X14: with [autoSweep] off, a payment that brings an active charge to its
    amount completes it: status [completed], [completedAt] the payment time,
    and the file written at once with the completed charge (timer cleared);
    nothing is sent, and the address stays indexed and watched. *)
Theorem handlePayment_completes (now : Z) (env : SweepEnv) (pay : PaymentEvent) (p : Processor)
    (cid : string) (c : Charge) :
  chargeByAddress pay.(pay_to) p = Some (cid, c) ->
  is_active c.(status) = true ->
  c.(amountRaw) <= c.(receivedRaw) + pay.(pay_amount) ->
  p.(autoSweep) = false ->
  let p' := handlePayment now env pay p in
  (exists c', map_get cid p'.(charges) = Some c' /\ c'.(status) = completed /\
     c'.(completedAt) = Some (Some now) /\
     c'.(receivedRaw) = c.(receivedRaw) + pay.(pay_amount)) /\
  p'.(saveDebounceTimer) = false /\
  p'.(disk) = savePersistedState
                (mkPersisted p.(nextAccountIndex) (map snd p'.(charges)) (toISOString now)) /\
  p'.(addressToChargeId) = p.(addressToChargeId) /\ p'.(monitored) = p.(monitored) /\
  p'.(ledgerSends) = p.(ledgerSends).
Proof.
  intros Hb Ha Hle Hs. cbv zeta. unfold handlePayment. rewrite Hb.
  assert (Hy : (amountRaw c <=? receivedRaw c + pay_amount pay) = true) by (apply Z.leb_le; lia).
  destruct (status c); try discriminate Ha; cbn; rewrite Hy; cbn; rewrite Hs;
    unfold emit, persistStateNow, set_persist, set_charges; cbn [charges];
    (split; [eexists; rewrite map_get_set_same; split; [reflexivity|];
             split; [reflexivity|]; split; reflexivity|]);
    repeat split.
Qed.

Lemma expire_at_idem (now : Z) (c : Charge) : expire_at now (expire_at now c) = expire_at now c.
Proof.
  unfold expire_at. destruct (is_active (status c) && date_lt (expiresAt c) now) eqn:E;
    [reflexivity | rewrite E; reflexivity].
Qed.

Lemma expire_one_step (now : Z) (acc : Processor * bool * list string) (cid : string) :
  let q := fst (fst acc) in
  let q' := fst (fst (expire_one now acc cid)) in
  (forall k, map_get k q'.(charges) =
     if String.eqb k cid then option_map (expire_at now) (map_get k q.(charges))
     else map_get k q.(charges)) /\
  map fst q'.(charges) = map fst q.(charges) /\
  q'.(autoSweep) = q.(autoSweep) /\
  (forall a, map_get a q.(addressToChargeId) = None -> map_get a q'.(addressToChargeId) = None) /\
  (forall a, ~ In a q.(monitored) -> ~ In a q'.(monitored)) /\
  (forall x, In x (snd acc) -> In x (snd (expire_one now acc cid))).
Proof.
  destruct acc as [[q ch] sp]. cbv zeta. cbn [fst snd]. unfold expire_one.
  destruct (map_get cid (charges q)) as [c|] eqn:E.
  - destruct (is_active (status c) && date_lt (expiresAt c) now) eqn:D.
    + assert (G : forall k, map_get k (map_set cid (set_status expired c) (charges q)) =
                    if String.eqb k cid then option_map (expire_at now) (map_get k (charges q))
                    else map_get k (charges q)).
      { intros k. rewrite map_get_set. destruct (String.eqb_spec k cid) as [->|]; [|reflexivity].
        rewrite E. cbn. unfold expire_at. rewrite D. reflexivity. }
      unfold emit, set_charges, set_addr, set_monitored. cbn [autoSweep].
      destruct ((0 <? receivedRaw c) && autoSweep q);
        cbn [fst snd charges addressToChargeId monitored autoSweep];
        (split; [exact G|]); (split; [apply (map_fst_set_present _ _ _ _ E)|]);
        (split; [reflexivity|]).
      * split; [auto|]. split; [auto|]. intros x Hx. apply in_app_iff. left. exact Hx.
      * split; [intros a Ha; rewrite map_get_delete, Ha; destruct (String.eqb a (address c)); reflexivity|].
        split; [|auto]. intros a Ha Hin. apply filter_In in Hin as [Hin _]. exact (Ha Hin).
    + cbn. split; [|auto]. intros k. destruct (String.eqb_spec k cid) as [->|]; [|reflexivity].
      rewrite E. cbn. unfold expire_at. rewrite D. reflexivity.
  - cbn. split; [|auto]. intros k. destruct (String.eqb_spec k cid) as [->|]; [|reflexivity].
    rewrite E. reflexivity.
Qed.

Lemma expire_fold_frame (now : Z) (l : list string) (acc : Processor * bool * list string) :
  let q := fst (fst acc) in
  let q' := fst (fst (fold_left (expire_one now) l acc)) in
  (forall k, map_get k q'.(charges) =
     if existsb (String.eqb k) l then option_map (expire_at now) (map_get k q.(charges))
     else map_get k q.(charges)) /\
  map fst q'.(charges) = map fst q.(charges) /\
  (forall a, map_get a q.(addressToChargeId) = None -> map_get a q'.(addressToChargeId) = None) /\
  (forall a, ~ In a q.(monitored) -> ~ In a q'.(monitored)) /\
  (forall x, In x (snd acc) -> In x (snd (fold_left (expire_one now) l acc))).
Proof.
  cbv zeta. revert acc. induction l as [|cid l IH]; intros acc; cbn [fold_left existsb].
  - auto.
  - destruct (expire_one_step now acc cid) as (S1 & S2 & _ & S4 & S5 & S6).
    destruct (IH (expire_one now acc cid)) as (I1 & I2 & I4 & I5 & I6).
    split; [|split; [congruence|split; [auto|split; auto]]].
    intros k. rewrite I1, !S1. destruct (String.eqb k cid); cbn [orb].
    + destruct (existsb (String.eqb k) l); [|reflexivity].
      destruct (map_get k (charges (fst (fst acc)))); cbn; [rewrite expire_at_idem|]; reflexivity.
    + reflexivity.
Qed.

Lemma existsb_keys_None {V} (m : list (string * V)) (k : string) :
  existsb (String.eqb k) (map fst m) = false -> map_get k m = None.
Proof.
  induction m as [|[k1 v1] m IH]; cbn; [reflexivity|].
  destruct (String.eqb k k1); [discriminate | exact IH].
Qed.

(** X15: [checkExpiredCharges] keeps every key of the charge map and turns
    each stored charge [c] into [expire_at now c]: [expired] when it was
    [pending] or [partial] and its [expiresAt] lies strictly before [now],
    unchanged otherwise; so a charge whose [expiresAt] is an Invalid Date
    never expires. *)
Theorem checkExpiredCharges_expires (now : Z) (p : Processor) :
  let p' := fst (checkExpiredCharges now p) in
  map fst p'.(charges) = map fst p.(charges) /\
  (forall k, map_get k p'.(charges) = option_map (expire_at now) (map_get k p.(charges))).
Proof.
  cbv zeta. unfold checkExpiredCharges.
  destruct (expire_fold_frame now (map fst (charges p)) (p, false, [])) as (F1 & F2 & _).
  destruct (fold_left (expire_one now) (map fst (charges p)) (p, false, []))
    as [[q ch] sp] eqn:E. cbn [fst] in F1, F2. cbv beta iota. cbn [fst].
  assert (C : charges (if ch then persistState q else q) = charges q) by (destruct ch; reflexivity).
  rewrite C. split; [exact F2|]. intros k. rewrite F1.
  destruct (existsb (String.eqb k) (map fst (charges p))) eqn:X; [reflexivity|].
  rewrite (existsb_keys_None _ _ X). reflexivity.
Qed.

Lemma expire_fold_release (now : Z) (l : list string) (acc : Processor * bool * list string)
    (k : string) (c : Charge) :
  In k l -> map_get k (fst (fst acc)).(charges) = Some c ->
  is_active c.(status) && date_lt c.(expiresAt) now = true ->
  (0 <? c.(receivedRaw)) && (fst (fst acc)).(autoSweep) = false ->
  map_get c.(address) (fst (fst (fold_left (expire_one now) l acc))).(addressToChargeId) = None /\
  ~ In c.(address) (fst (fst (fold_left (expire_one now) l acc))).(monitored).
Proof.
  revert acc. induction l as [|cid l IH]; intros acc Hi Hg Hd Hs; [destruct Hi|].
  cbn [fold_left].
  destruct (String.eqb_spec cid k) as [<-|Hne].
  - destruct (expire_fold_frame now l (expire_one now acc cid)) as (_ & _ & F3 & F4 & _).
    cbv zeta in F3, F4.
    destruct acc as [[q ch] sp]. cbn [fst] in Hg, Hs.
    assert (R : map_get (address c)
                  (fst (fst (expire_one now (q, ch, sp) cid))).(addressToChargeId) = None /\
                ~ In (address c) (fst (fst (expire_one now (q, ch, sp) cid))).(monitored)).
    { unfold expire_one. rewrite Hg, Hd. unfold emit, set_charges, set_addr, set_monitored.
      cbn [autoSweep]. rewrite Hs. cbn [fst addressToChargeId monitored].
      rewrite map_get_delete, String.eqb_refl. split; [reflexivity | apply not_In_set_remove]. }
    destruct R as [R1 R2]. split; [apply F3, R1 | apply F4, R2].
  - destruct Hi as [E|Hi]; [contradiction|].
    destruct (expire_one_step now acc cid) as (S1 & _ & S3 & _).
    assert (Hk : String.eqb k cid = false) by (apply String.eqb_neq; congruence).
    apply IH; [exact Hi | rewrite S1, Hk; exact Hg | exact Hd | rewrite S3; exact Hs].
Qed.

Lemma expire_fold_spawn (now : Z) (l : list string) (acc : Processor * bool * list string)
    (k : string) (c : Charge) :
  In k l -> map_get k (fst (fst acc)).(charges) = Some c ->
  is_active c.(status) && date_lt c.(expiresAt) now = true ->
  (0 <? c.(receivedRaw)) && (fst (fst acc)).(autoSweep) = true ->
  In c.(id) (snd (fold_left (expire_one now) l acc)).
Proof.
  revert acc. induction l as [|cid l IH]; intros acc Hi Hg Hd Hs; [destruct Hi|].
  cbn [fold_left].
  destruct (String.eqb_spec cid k) as [<-|Hne].
  - destruct (expire_fold_frame now l (expire_one now acc cid)) as (_ & _ & _ & _ & F5).
    apply F5. destruct acc as [[q ch] sp]. cbn [fst] in Hg, Hs.
    unfold expire_one. rewrite Hg, Hd. unfold emit, set_charges.
    cbn [autoSweep]. rewrite Hs. cbn [snd]. apply in_app_iff. right. left. reflexivity.
  - destruct Hi as [E|Hi]; [contradiction|].
    destruct (expire_one_step now acc cid) as (S1 & _ & S3 & _).
    assert (Hk : String.eqb k cid = false) by (apply String.eqb_neq; congruence).
    apply IH; [exact Hi | rewrite S1, Hk; exact Hg | exact Hd | rewrite S3; exact Hs].
Qed.

(** X16: when [checkExpiredCharges] expires a charge that received nothing,
    or any charge while [autoSweep] is off, it releases the charge's
    address: the address index no longer holds it and the monitor no longer
    watches it. *)
Theorem checkExpiredCharges_releases (now : Z) (p : Processor) (k : string) (c : Charge) :
  map_get k p.(charges) = Some c ->
  is_active c.(status) = true -> date_lt c.(expiresAt) now = true ->
  (c.(receivedRaw) <= 0 \/ p.(autoSweep) = false) ->
  map_get c.(address) (fst (checkExpiredCharges now p)).(addressToChargeId) = None /\
  ~ In c.(address) (fst (checkExpiredCharges now p)).(monitored).
Proof.
  intros Hg Ha Hd Hs.
  assert (Hi : In k (map fst (charges p))) by exact (in_map fst _ _ (map_get_In _ _ _ Hg)).
  assert (Hd' : is_active (status c) && date_lt (expiresAt c) now = true) by (rewrite Ha, Hd; reflexivity).
  assert (Hs' : (0 <? receivedRaw c) && autoSweep p = false).
  { destruct Hs as [H|H]; [rewrite (proj2 (Z.ltb_ge 0 (receivedRaw c)) H); reflexivity |
                           rewrite H; apply andb_false_r]. }
  pose proof (expire_fold_release now (map fst (charges p)) (p, false, []) k c Hi Hg Hd' Hs') as R.
  unfold checkExpiredCharges.
  destruct (fold_left (expire_one now) (map fst (charges p)) (p, false, [])) as [[q ch] sp].
  cbn [fst] in R. cbv beta iota. cbn [fst]. destruct ch; exact R.
Qed.

(** X17: when [checkExpiredCharges] expires a charge that received funds
    while [autoSweep] is on, it starts a sweep of that charge (its id is
    among the sweeps started). *)
Theorem checkExpiredCharges_spawns_sweep (now : Z) (p : Processor) (k : string) (c : Charge) :
  map_get k p.(charges) = Some c ->
  is_active c.(status) = true -> date_lt c.(expiresAt) now = true ->
  0 < c.(receivedRaw) -> p.(autoSweep) = true ->
  In c.(id) (snd (checkExpiredCharges now p)).
Proof.
  intros Hg Ha Hd Hr Hs.
  assert (Hi : In k (map fst (charges p))) by exact (in_map fst _ _ (map_get_In _ _ _ Hg)).
  assert (Hd' : is_active (status c) && date_lt (expiresAt c) now = true) by (rewrite Ha, Hd; reflexivity).
  assert (Hs' : (0 <? receivedRaw c) && autoSweep p = true)
    by (rewrite Hs, (proj2 (Z.ltb_lt 0 (receivedRaw c)) Hr); reflexivity).
  pose proof (expire_fold_spawn now (map fst (charges p)) (p, false, []) k c Hi Hg Hd' Hs') as R.
  unfold checkExpiredCharges.
  destruct (fold_left (expire_one now) (map fst (charges p)) (p, false, [])) as [[q ch] sp].
  exact R.
Qed.

(** X18: when no stored charge is due, [checkExpiredCharges] changes
    nothing at all (in particular it does not re-arm the debounced save)
    and starts no sweep. *)
Theorem checkExpiredCharges_nothing_due (now : Z) (p : Processor) :
  (forall k c, map_get k p.(charges) = Some c ->
     is_active c.(status) && date_lt c.(expiresAt) now = false) ->
  checkExpiredCharges now p = (p, []).
Proof.
  intros H. unfold checkExpiredCharges.
  assert (F : forall l, fold_left (expire_one now) l (p, false, []) = (p, false, [])).
  { induction l as [|cid l IH]; [reflexivity|]. cbn [fold_left].
    replace (expire_one now (p, false, []) cid) with (p, false, ([] : list string)); [exact IH|].
    unfold expire_one. destruct (map_get cid (charges p)) eqn:E; [rewrite (H _ _ E)|]; reflexivity. }
  rewrite F. reflexivity.
Qed.

Lemma callWebhook_monitored (cid : string) (c : Charge) (h : string) (amt now : Z)
    (resp : FetchResult) (p : Processor) :
  (state_of (callWebhook cid c h amt now resp p)).(monitored) = p.(monitored).
Proof.
  unfold callWebhook. destruct (negb (truthy_str (webhookUrl c))); [reflexivity|].
  destruct (webhook_payload c h amt now); [|reflexivity]. destruct resp; reflexivity.
Qed.

Lemma sweep_monitored (cid : string) (now : Z) (env : SweepEnv) (p : Processor) (a : string) :
  In a (state_of (sweepCharge cid now env p)).(monitored) -> In a p.(monitored).
Proof.
  unfold sweepCharge.
  destruct (map_get cid (charges p)) as [c|]; [|auto].
  destruct (status_eqb (status c) swept); [auto|].
  destruct (negb (receivePendingOk env)); [auto|].
  destruct (balance env =? 0); [auto|].
  destruct (sendResult env) as [h|]; [|auto].
  destruct (truthy_str _ && _).
  - destruct (callWebhook _ _ _ _ _ _ _) eqn:E;
      apply (f_equal (fun o => (state_of o).(monitored))) in E;
      rewrite callWebhook_monitored in E; cbn [state_of] in E |- *;
      unfold emit in *; cbn [monitored] in *; rewrite <- E;
      unfold persistStateNow, set_persist, set_charges, set_addr, set_monitored, log_send;
      cbn [monitored]; intros H; apply filter_In in H as [H _]; exact H.
  - cbn [state_of]. unfold emit, persistStateNow, set_persist, set_charges, set_addr,
      set_monitored, log_send; cbn [monitored].
    intros H; apply filter_In in H as [H _]; exact H.
Qed.

Lemma recover_blocks_monitored (now : Z) (cid : string) (pend : list (PendingBlock * bool))
    (c : Charge) (p : Processor) :
  (snd (recover_blocks now cid pend c p)).(monitored) = p.(monitored).
Proof.
  revert c p. induction pend as [|[pb ok] pend IH]; intros c p; [reflexivity|].
  cbn [recover_blocks]. destruct ok; rewrite IH; reflexivity.
Qed.

Lemma recover_charge_monitored (now : Z) (cid : string) (pend : list (PendingBlock * bool))
    (env : SweepEnv) (p : Processor) (a : string) :
  In a (recover_charge now cid pend env p).(monitored) -> In a p.(monitored).
Proof.
  unfold recover_charge.
  destruct (map_get cid (charges p)) as [c|]; [|auto].
  destruct pend as [|b pend]; [auto|].
  pose proof (recover_blocks_monitored now cid (b :: pend) c (emit "recovery:found" cid p)) as M.
  destruct (recover_blocks now cid (b :: pend) c (emit "recovery:found" cid p)) as [c1 p1].
  cbn [fst snd] in M |- *.
  assert (M' : monitored p1 = monitored p) by (rewrite M; reflexivity). clear M. rename M' into M.
  destruct (amountRaw c1 <=? receivedRaw c1).
  - match goal with |- context [sweepCharge ?a1 ?a2 ?a3 ?a4] =>
      pose proof (sweep_monitored a1 a2 a3 a4 a) as S; set (q := a4) in * end.
    assert (Q : monitored q = monitored p1) by reflexivity.
    destruct (autoSweep q).
    + destruct (sweepCharge _ _ _ q) eqn:E; cbn [state_of] in S; intros H;
        rewrite <- M, <- Q; apply S; exact H.
    + intros H. rewrite <- M, <- Q. exact H.
  - destruct (0 <? receivedRaw c1); intros H; rewrite <- M; exact H.
Qed.

Lemma checkMissedPayments_monitored (now : Z) (renv : RecoveryEnv) (p : Processor) (a : string) :
  In a (checkMissedPayments now renv p).(monitored) -> In a p.(monitored).
Proof.
  unfold checkMissedPayments. generalize (active_ids p). intros l. revert p.
  induction l as [|cid l IH]; intros p H; [exact H|].
  cbn [fold_left] in H. apply IH in H. exact (recover_charge_monitored _ _ _ _ _ _ H).
Qed.

Lemma In_fold_set_add (cs : list Charge) (l : list string) (a : string) :
  In a (fold_left (fun l c => set_add c.(address) l) cs l) <->
  In a l \/ exists c, In c cs /\ c.(address) = a.
Proof.
  revert l. induction cs as [|c cs IH]; intros l; cbn [fold_left].
  - split; [auto|]. intros [H|(? & [] & _)]. exact H.
  - rewrite IH, In_set_add. split.
    + intros [[H|H]|(c' & Hi & H)]; [right; exists c; cbn; auto | left; exact H
                                   | right; exists c'; cbn; auto].
    + intros [H|(c' & [<-|Hi] & H)]; [left; right; exact H | left; left; auto
                                     | right; exists c'; auto].
Qed.

(** X19: [start()] on a running processor does nothing; otherwise it
    leaves the processor running, and afterwards the monitor watches only
    addresses it watched before or addresses of charges that were
    [pending] or [partial] at start: the recovery it runs never adds one. *)
Theorem start_watches_active (now : Z) (renv : RecoveryEnv) (monitorOk : bool) (p : Processor) :
  start true now renv monitorOk p = (true, p) /\
  fst (start false now renv monitorOk p) = true /\
  (forall a, In a (snd (start false now renv monitorOk p)).(monitored) ->
     In a p.(monitored) \/ exists c, In c (listActiveCharges p) /\ c.(address) = a).
Proof.
  split; [reflexivity|]. split; [reflexivity|]. intros a. unfold start. cbv zeta.
  intros H. apply In_fold_set_add.
  match goal with H : In a (snd (true, ?t)).(monitored) |- _ =>
    assert (E : (snd (true, t)).(monitored) = (checkMissedPayments now renv
                  (set_monitored (fold_left (fun l c => set_add c.(address) l)
                     (listActiveCharges p) p.(monitored)) p)).(monitored))
      by (destruct monitorOk; reflexivity) end.
  rewrite E in H. apply checkMissedPayments_monitored in H. exact H.
Qed.

(** X20: when no active charge has a pending block, [checkMissedPayments]
    changes nothing: no event, no write, no sweep. *)
Theorem checkMissedPayments_nothing_pending (now : Z) (renv : RecoveryEnv) (p : Processor) :
  (forall cid, fst (renv cid) = []) -> checkMissedPayments now renv p = p.
Proof.
  intros H. unfold checkMissedPayments. generalize (active_ids p). intros l.
  induction l as [|cid l IH]; [reflexivity|]. cbn [fold_left].
  replace (recover_charge now cid (fst (renv cid)) (snd (renv cid)) p) with p; [exact IH|].
  unfold recover_charge. rewrite H. destruct (map_get cid (charges p)); reflexivity.
Qed.

(** X21: a sweep that fails, because [receivePending] rejected or because
    the send of a nonzero balance rejected, rejects and leaves the charge
    as it was (not [swept]), its address indexed and watched, the file and
    the timer unchanged and no webhook posted; it emits one "error" event
    and has made at most the one send attempt. *)
Theorem sweepCharge_failure_keeps_charge (cid : string) (now : Z) (env : SweepEnv)
    (p : Processor) (c : Charge) :
  map_get cid p.(charges) = Some c -> c.(status) <> swept ->
  (env.(receivePendingOk) = false \/ (env.(balance) <> 0 /\ env.(sendResult) = None)) ->
  let o := sweepCharge cid now env p in
  (exists e, o = Err e (state_of o)) /\
  (state_of o).(charges) = p.(charges) /\
  (state_of o).(addressToChargeId) = p.(addressToChargeId) /\
  (state_of o).(monitored) = p.(monitored) /\
  (state_of o).(disk) = p.(disk) /\
  (state_of o).(saveDebounceTimer) = p.(saveDebounceTimer) /\
  (state_of o).(webhookPosts) = p.(webhookPosts) /\
  (state_of o).(events) = p.(events) ++ [("error", cid)] /\
  (length (state_of o).(ledgerSends) <= S (length p.(ledgerSends)))%nat.
Proof.
  intros Hg Hs Hf. cbv zeta. unfold sweepCharge. rewrite Hg, (status_eqb_false _ _ Hs).
  destruct (receivePendingOk env) eqn:R; cbn [negb].
  - destruct Hf as [Hf|[Hb Hn]]; [discriminate|].
    apply Z.eqb_neq in Hb. rewrite Hb, Hn. cbn.
    split; [eexists; reflexivity|]. repeat split. rewrite length_app_one. lia.
  - cbn. split; [eexists; reflexivity|]. repeat split. lia.
Qed.

Lemma find_app {A} (f : A -> bool) (l1 l2 : list A) :
  find f (l1 ++ l2) = match find f l1 with Some x => Some x | None => find f l2 end.
Proof. induction l1 as [|a l1 IH]; [reflexivity|]. cbn. destruct (f a); [reflexivity | exact IH]. Qed.

(** X22: the wallet's account cache is transparent: when every cached
    address is the one derived from its index, [deriveAccount(index)]
    returns the derived address of [index], the cache keeps that property
    and holds [index] afterwards. *)
Theorem wallet_deriveAccount_cached (derive : Z -> string) (index : Z) (cache : list (Z * string)) :
  Forall (fun e => snd e = derive (fst e)) cache ->
  let r := wallet_deriveAccount derive index cache in
  fst r = derive index /\
  Forall (fun e => snd e = derive (fst e)) (snd r) /\
  find (fun e => Z.eqb (fst e) index) (snd r) <> None.
Proof.
  intros H. cbv zeta. unfold wallet_deriveAccount.
  destruct (find (fun e => Z.eqb (fst e) index) cache) as [e|] eqn:E.
  - apply find_some in E as [Hi Hx]. apply Z.eqb_eq in Hx.
    rewrite Forall_forall in H. cbn [fst snd]. split; [rewrite (H e Hi), Hx; reflexivity|].
    split; [rewrite Forall_forall; exact H|].
    destruct (find _ cache) eqn:E'; [discriminate|].
    exfalso. apply (find_none _ _ E') in Hi. rewrite <- Hx, Z.eqb_refl in Hi. discriminate.
  - cbn [fst snd]. split; [reflexivity|].
    split; [apply Forall_app; split; [exact H | constructor; [reflexivity | constructor]]|].
    rewrite find_app, E. cbn. rewrite Z.eqb_refl. discriminate.
Qed.

Lemma receive_loop_cases (recv : PendingBlock -> sum string string) (pend : list PendingBlock) :
  let res := receive_loop recv pend in
  (exists rs, snd res = inl rs /\ fst res = pend /\
     Forall2 (fun pb x => recv pb = inl (fst x) /\ snd x = pb.(pb_amount)) pend rs) \/
  (exists pre pb post msg, pend = pre ++ pb :: post /\
     Forall (fun q => exists h, recv q = inl h) pre /\ recv pb = inr msg /\
     fst res = pre ++ [pb] /\
     snd res = inr ("Failed to receive " ++ pb.(pb_hash) ++ ": " ++ msg)%string).
Proof.
  cbv zeta. induction pend as [|pb rest IH].
  - left. exists []. repeat split. constructor.
  - cbn [receive_loop]. destruct (recv pb) as [h|msg] eqn:R.
    + destruct IH as [(rs & E1 & E2 & F)|(pre & q & post & msg & -> & F & Rq & E1 & E2)].
      * left. exists ((h, pb_amount pb) :: rs). cbn [fst snd]. rewrite E1, E2.
        split; [reflexivity|]. split; [reflexivity|]. constructor; [split; [exact R | reflexivity] | exact F].
      * right. exists (pb :: pre), q, post, msg. cbn [fst snd]. rewrite E1, E2.
        split; [reflexivity|]. split; [constructor; [exists h; exact R | exact F]|].
        split; [exact Rq|]. split; reflexivity.
    + right. exists [], pb, rest, msg. repeat split; [constructor | exact R].
Qed.

(** X23: [receivePending] receives the pending blocks one by one in the
    order the node lists them and stops at the first failure: either every
    block was received (the result lists each new hash with the block's
    amount), or the blocks before the failing one were received, nothing
    after it was attempted, and the error "Failed to receive <hash>: <msg>"
    is rethrown, or no block was pending and the balance check threw.  The
    blocks are the entries of the [blocks] object: when the RPC fails or
    [blocks] is empty or a string, nothing is received. *)
Theorem receivePending_stops_at_failure (r : option BlocksField) (check : option string)
    (recv : PendingBlock -> sum string string) :
  let pend := getPendingBlocks r in
  let res := receivePending r check recv in
  map pb_hash pend = match r with Some (BlocksObject es) => map fst es | _ => [] end /\
  ((exists rs, snd res = inl rs /\ fst res = pend /\
     Forall2 (fun pb x => recv pb = inl (fst x) /\ snd x = pb.(pb_amount)) pend rs) \/
   (exists pre pb post msg, pend = pre ++ pb :: post /\
     Forall (fun q => exists h, recv q = inl h) pre /\ recv pb = inr msg /\
     fst res = pre ++ [pb] /\
     snd res = inr ("Failed to receive " ++ pb.(pb_hash) ++ ": " ++ msg)%string) \/
   (exists e, pend = [] /\ check = Some e /\ res = ([], inr e))).
Proof.
  cbv zeta. split.
  - destruct r as [[| |es]|]; try reflexivity. cbn [getPendingBlocks].
    rewrite map_map. apply map_ext. intros [k [a|a s]]; reflexivity.
  - unfold receivePending.
    destruct (getPendingBlocks r) as [|b pend] eqn:E; [destruct check as [e|]|].
    + right; right. exists e. auto.
    + destruct (receive_loop_cases recv []) as [H|H]; [left; exact H | right; left; exact H].
    + destruct (receive_loop_cases recv (b :: pend)) as [H|H];
        [left; exact H | right; left; exact H].
Qed.


End Processor.

(** ** Instances on concrete inputs *)

Lemma deleteCharge_unknown_id_witness :
  map_get "c9" demo_processor.(charges) = None /\
  deleteCharge "c9" demo_processor = Ok false demo_processor.
Proof.
  split; [reflexivity|].
  exact (proj1 (deleteCharge_unknown_id demo_deriveAccount demo_rawToNano demo_toISOString
                  "c9" demo_processor 0 demo_env [] 0 eq_refl)).
Defined.

Lemma sweepCharge_nothing_to_sweep_witness :
  map_get "c1" demo_processor.(charges) = Some demo_charge /\
  (mkSweepEnv true 0 None FetchOk).(receivePendingOk) = true /\
  (mkSweepEnv true 0 None FetchOk).(balance) = 0 /\
  sweepCharge demo_deriveAccount demo_rawToNano demo_toISOString "c1" 7
    (mkSweepEnv true 0 None FetchOk) demo_processor = Ok None demo_processor.
Proof.
  split; [reflexivity|]. split; [reflexivity|]. split; [reflexivity|].
  exact (proj2 (proj2 (sweepCharge_nothing_to_sweep demo_deriveAccount demo_rawToNano
           demo_toISOString "c1" 7 (mkSweepEnv true 0 None FetchOk) demo_processor))
           demo_charge eq_refl eq_refl eq_refl).
Defined.

Lemma deleteCharge_only_terminal_witness :
  map_get "c1" demo_swept_processor.(charges) = Some demo_swept_charge /\
  exists p', deleteCharge "c1" demo_swept_processor = Ok true p' /\
    map_get "c1" p'.(charges) = None.
Proof.
  split; [reflexivity|].
  destruct (proj1 (deleteCharge_only_terminal "c1" demo_swept_processor demo_swept_charge
                     eq_refl) (or_introl eq_refl)) as (p' & H1 & H2 & _).
  exists p'. split; [exact H1 | exact H2].
Defined.

Lemma sweepCharge_success_witness :
  map_get "c1" demo_processor.(charges) = Some demo_charge /\
  demo_charge.(status) <> swept /\
  demo_env.(receivePendingOk) = true /\
  demo_env.(balance) <> 0 /\
  demo_env.(sendResult) = Some "h1" /\
  sweepCharge demo_deriveAccount demo_rawToNano demo_toISOString "c1" 7 demo_env demo_processor =
    Ok (Some ("h1", 5))
      (state_of (sweepCharge demo_deriveAccount demo_rawToNano demo_toISOString "c1" 7
                   demo_env demo_processor)) /\
  Some ("h1", 5) = Some ("h1", demo_env.(balance)).
Proof.
  assert (H : sweepCharge demo_deriveAccount demo_rawToNano demo_toISOString "c1" 7 demo_env
                demo_processor =
              Ok (Some ("h1", 5))
                (state_of (sweepCharge demo_deriveAccount demo_rawToNano demo_toISOString "c1" 7
                             demo_env demo_processor))) by reflexivity.
  split; [reflexivity|]. split; [discriminate|]. split; [reflexivity|].
  split; [discriminate|]. split; [reflexivity|]. split; [exact H|].
  exact (proj1 (sweepCharge_success demo_deriveAccount demo_rawToNano demo_toISOString
                  "c1" 7 demo_env demo_processor demo_charge "h1" _ _ eq_refl
                  ltac:(discriminate) eq_refl ltac:(discriminate) eq_refl H)).
Defined.

Lemma sweep_webhook_single_attempt_witness :
  map_get "c2" demo_hook_processor.(charges) = Some demo_hook_charge /\
  demo_hook_charge.(status) <> swept /\
  demo_failing_env.(receivePendingOk) = true /\
  demo_failing_env.(balance) <> 0 /\
  demo_failing_env.(sendResult) = Some "h1" /\
  truthy_str demo_hook_charge.(webhookUrl) = true /\
  truthy_bool demo_hook_charge.(webhookSent) = false /\
  demo_hook_charge.(completedAt) <> Some None /\
  exists p', sweepCharge demo_deriveAccount demo_rawToNano demo_toISOString "c2" 7
               demo_failing_env demo_hook_processor = Ok (Some ("h1", 5)) p' /\
    length p'.(webhookPosts) = 1%nat.
Proof.
  split; [reflexivity|]. split; [discriminate|]. split; [reflexivity|].
  split; [discriminate|]. split; [reflexivity|]. split; [reflexivity|].
  split; [reflexivity|]. split; [discriminate|].
  destruct (sweep_webhook_single_attempt demo_deriveAccount demo_rawToNano demo_toISOString
              "c2" 7 demo_failing_env demo_hook_processor demo_hook_charge "h1" eq_refl
              ltac:(discriminate) eq_refl ltac:(discriminate) eq_refl eq_refl eq_refl
              ltac:(discriminate)) as (p' & H1 & H2 & _).
  exists p'. split; [exact H1 | exact H2].
Defined.

Lemma received_matches_transactions_witness :
  chargeByAddress "nano_1000" demo_processor = Some ("c1", demo_charge) /\
  is_active demo_charge.(status) = true /\
  exists c', map_get "c1" (handlePayment demo_deriveAccount demo_rawToNano demo_toISOString
                             60 demo_env demo_payment demo_processor).(charges) = Some c' /\
    c'.(receivedRaw) = 0 + 3.
Proof.
  split; [reflexivity|]. split; [reflexivity|].
  destruct (proj1 (proj2 (proj2 (received_matches_transactions demo_deriveAccount
              demo_rawToNano demo_nanoToRaw demo_toISOString)))
              60 demo_env demo_payment demo_processor "c1" demo_charge eq_refl eq_refl)
    as (c' & H1 & _ & H3).
  exists c'. split; [exact H1 | exact H3].
Defined.

Lemma status_moves_forward_witness :
  map_get "c1" demo_expired_processor.(charges) = Some demo_expired_charge /\
  demo_expired_charge.(status) <> swept /\
  demo_env.(receivePendingOk) = true /\ demo_env.(balance) <> 0 /\
  demo_env.(sendResult) <> None /\
  exists c', map_get "c1" (state_of (sweepCharge demo_deriveAccount demo_rawToNano
                 demo_toISOString "c1" 7 demo_env demo_expired_processor)).(charges) = Some c' /\
    c'.(status) = swept.
Proof.
  split; [reflexivity|]. split; [discriminate|]. split; [reflexivity|].
  split; [discriminate|]. split; [discriminate|].
  exact (proj2 (proj2 (status_moves_forward demo_deriveAccount demo_rawToNano demo_nanoToRaw
           demo_toISOString)) "c1" 7 demo_env demo_expired_processor demo_expired_charge
           eq_refl ltac:(discriminate) eq_refl ltac:(discriminate) ltac:(discriminate)).
Defined.

Lemma demo_deriveAccount_inj (i j : Z) : demo_deriveAccount i = demo_deriveAccount j -> i = j.
Proof.
  unfold demo_deriveAccount. cbn. intros H. injection H as H.
  apply (f_equal parse_dec) in H. rewrite !parse_dec_dec in H. injection H as H. exact H.
Qed.

Lemma createCharges_allocation_witness :
  (forall i j, demo_deriveAccount i = demo_deriveAccount j -> i = j) /\
  NoDup (map address (fst (createCharges demo_deriveAccount demo_nanoToRaw demo_requests
                             demo_empty_processor))).
Proof.
  split; [exact demo_deriveAccount_inj|].
  exact (proj2 (proj2 (proj2 (proj2 (proj1 (createCharges_allocation demo_deriveAccount
           demo_rawToNano demo_nanoToRaw demo_toISOString) demo_requests demo_empty_processor))))
           demo_deriveAccount_inj).
Defined.

Lemma demo_parse_iso (t : Z) :
  Z.abs t <= maxTime -> demo_date_parse (demo_toISOString t) = Some t.
Proof. intros _. apply parse_dec_dec. Qed.

Lemma demo_iso_nonempty (t : Z) : Z.abs t <= maxTime -> demo_toISOString t <> "".
Proof. intros _. apply dec_nonempty. Qed.

Lemma persist_roundtrip_witness :
  (forall t, Z.abs t <= maxTime -> demo_date_parse (demo_toISOString t) = Some t) /\
  (forall t, Z.abs t <= maxTime -> demo_toISOString t <> "") /\
  Forall (fun c => dates_valid c = true) demo_state.(ps_charges) /\
  loadPersistedState demo_date_parse (savePersistedState demo_toISOString demo_state) =
    Some demo_state.
Proof.
  split; [exact demo_parse_iso|]. split; [exact demo_iso_nonempty|].
  assert (H : Forall (fun c => dates_valid c = true) demo_state.(ps_charges))
    by (apply Forall_cons; [reflexivity | apply Forall_nil]).
  split; [exact H|].
  exact (proj1 (persist_roundtrip demo_toISOString demo_date_parse demo_parse_iso
                  demo_iso_nonempty) demo_state H).
Defined.

Lemma construct_registers_swept_witness :
  loadPersistedState demo_date_parse demo_swept_file =
    Some (mkPersisted 1001 [demo_swept_charge] "9") /\
  In demo_swept_charge [demo_swept_charge] /\
  demo_swept_charge.(status) = swept /\
  exists cid, map_get "nano_1000"
    (construct demo_date_parse demo_config demo_swept_file).(addressToChargeId) = Some cid.
Proof.
  assert (H : loadPersistedState demo_date_parse demo_swept_file =
                Some (mkPersisted 1001 [demo_swept_charge] "9")) by reflexivity.
  split; [exact H|]. split; [left; reflexivity|]. split; [reflexivity|].
  exact (construct_registers_swept demo_date_parse demo_config demo_swept_file _
           demo_swept_charge H (or_introl eq_refl) eq_refl).
Defined.

(** ** Counterexamples *)

(** An [expired] charge that received nothing is swept when funds reach its
    sub-account later: [expired] to [swept] with zero received, which the
    section 4.2 state machine does not allow *)
Lemma sweep_empty_expired_counterexample :
  step demo_deriveAccount demo_rawToNano demo_nanoToRaw demo_toISOString
    demo_expired_processor
    (state_of (sweepCharge demo_deriveAccount demo_rawToNano demo_toISOString "c1" 7 demo_env
                 demo_expired_processor)) /\
  map_get "c1" demo_expired_processor.(charges) = Some demo_expired_charge /\
  map_get "c1" (state_of (sweepCharge demo_deriveAccount demo_rawToNano demo_toISOString "c1" 7
                            demo_env demo_expired_processor)).(charges) =
    Some (mark_swept 7 "h1" demo_expired_charge) /\
  demo_expired_charge.(receivedRaw) = 0 /\
  spec_allows demo_expired_charge (mark_swept 7 "h1" demo_expired_charge) = false.
Proof.
  split; [apply step_sweep|]. split; [reflexivity|]. split; [vm_compute; reflexivity|].
  split; reflexivity.
Defined.

(** A charge created with a NaN timeout has an Invalid [expiresAt]; it is
    saved as [null] and reloaded as the epoch *)
Lemma invalid_date_roundtrip_counterexample :
  map (fun kc => (snd kc).(expiresAt))
      (snd (createCharge demo_deriveAccount demo_nanoToRaw "c1" 0 demo_nan_options
              demo_empty_processor)).(charges) = [None] /\
  option_map (fun st => map expiresAt st.(ps_charges))
    (loadPersistedState demo_date_parse
       (persistStateNow demo_toISOString 0
          (snd (createCharge demo_deriveAccount demo_nanoToRaw "c1" 0 demo_nan_options
                  demo_empty_processor))).(disk)) = Some [Some 0].
Proof. split; vm_compute; reflexivity. Defined.

(** ** Instances of the further properties *)

Lemma generateChargeId_injective_witness :
  generateChargeId [Byte.x0a; Byte.xff] = generateChargeId [Byte.x0a; Byte.xff] /\
  [Byte.x0a; Byte.xff] = [Byte.x0a; Byte.xff].
Proof.
  split; [reflexivity|].
  exact (generateChargeId_injective [Byte.x0a; Byte.xff] [Byte.x0a; Byte.xff] eq_refl).
Defined.

Lemma listCharges_unknown_status_witness :
  parse_status "done" = None /\
  listCharges (Some "done") demo_processor =
    if String.eqb "done" "" then exportCharges demo_processor else [].
Proof.
  split; [reflexivity|].
  exact (listCharges_unknown_status "done" demo_processor eq_refl).
Defined.

Lemma demo_processor_keys_ok : keys_ok demo_processor.(charges).
Proof. split; repeat constructor; cbn; intros []. Qed.

Lemma listActiveCharges_ids_witness :
  keys_ok demo_processor.(charges) /\
  map id (listActiveCharges demo_processor) = active_ids demo_processor.
Proof.
  split; [exact demo_processor_keys_ok|].
  exact (listActiveCharges_ids demo_processor demo_processor_keys_ok).
Defined.

Lemma checkChargeStatus_remaining_witness :
  map_get "c1" demo_processor.(charges) = Some demo_charge /\
  exists paid rem,
    checkChargeStatus "c1" [mkPendingBlock "b1" 1 "nano_payer"] 2 demo_processor =
      Ok (paid, rem) demo_processor /\
    rem = Z.max 0 (demo_charge.(amountRaw) -
                   (2 + fold_right (fun pb s => pb.(pb_amount) + s) 0
                          [mkPendingBlock "b1" 1 "nano_payer"])) /\
    (paid = true <-> rem = 0).
Proof.
  split; [reflexivity|].
  exact (checkChargeStatus_remaining "c1" [mkPendingBlock "b1" 1 "nano_payer"] 2
           demo_processor demo_charge eq_refl).
Defined.

Lemma cleanupSweptCharges_removes_swept_witness :
  NoDup (map fst demo_swept_processor.(charges)) /\
  let r := cleanupSweptCharges demo_swept_processor in
  fst r = Z.of_nat (length (filter (fun kc => status_eqb (snd kc).(status) swept)
                              demo_swept_processor.(charges))) /\
  (forall k c, map_get k (snd r).(charges) = Some c <->
     map_get k demo_swept_processor.(charges) = Some c /\ c.(status) <> swept) /\
  (snd r).(addressToChargeId) = demo_swept_processor.(addressToChargeId) /\
  (snd r).(monitored) = demo_swept_processor.(monitored) /\
  (snd r).(disk) = demo_swept_processor.(disk) /\
  (snd r).(saveDebounceTimer) = (0 <? fst r) || demo_swept_processor.(saveDebounceTimer).
Proof.
  assert (H : NoDup (map fst demo_swept_processor.(charges))) by (repeat constructor; intros []).
  split; [exact H|].
  exact (cleanupSweptCharges_removes_swept demo_swept_processor H).
Defined.

Lemma importCharges_index_reuse_witness :
  In demo_charge [demo_charge] /\
  demo_charge.(accountIndex) = demo_empty_processor.(nextAccountIndex) /\
  demo_charge.(address) = demo_deriveAccount demo_charge.(accountIndex) /\
  "c2" <> demo_charge.(id) /\
  let r := createCharge demo_deriveAccount demo_nanoToRaw "c2" 0 demo_options
             (importCharges [demo_charge] demo_empty_processor) in
  (fst r).(accountIndex) = demo_charge.(accountIndex) /\
  (fst r).(address) = demo_charge.(address) /\
  map_get demo_charge.(address) (snd r).(addressToChargeId) = Some "c2" /\
  map_get demo_charge.(id) (snd r).(charges) <> None.
Proof.
  assert (H1 : In demo_charge [demo_charge]) by (left; reflexivity).
  assert (H4 : "c2" <> demo_charge.(id)) by discriminate.
  split; [exact H1|]. split; [reflexivity|]. split; [reflexivity|]. split; [exact H4|].
  exact (importCharges_index_reuse demo_deriveAccount demo_rawToNano demo_nanoToRaw
           demo_toISOString demo_date_parse [demo_charge] demo_empty_processor demo_charge
           "c2" 0 demo_options H1 eq_refl eq_refl H4).
Defined.

Lemma export_import_roundtrip_witness :
  keys_ok demo_processor.(charges) /\ demo_empty_processor.(charges) = [] /\
  (importCharges (exportCharges demo_processor) demo_empty_processor).(charges) =
    demo_processor.(charges).
Proof.
  split; [exact demo_processor_keys_ok|]. split; [reflexivity|].
  exact (export_import_roundtrip demo_deriveAccount demo_rawToNano demo_nanoToRaw
           demo_toISOString demo_date_parse demo_processor demo_empty_processor
           demo_processor_keys_ok eq_refl).
Defined.

Lemma handlePayment_ignored_witness :
  (forall cid c, chargeByAddress "nano_1001" demo_hook_processor = Some (cid, c) ->
     is_active c.(status) = false) /\
  handlePayment demo_deriveAccount demo_rawToNano demo_toISOString 60 demo_env
    (mkPaymentEvent "nano_1001" "nano_payer" "b2" 3 "3" (Some 60)) demo_hook_processor =
    demo_hook_processor.
Proof.
  assert (H : forall cid c, chargeByAddress "nano_1001" demo_hook_processor = Some (cid, c) ->
                is_active c.(status) = false)
    by (intros cid c E; vm_compute in E; injection E as _ <-; reflexivity).
  split; [exact H|].
  exact (handlePayment_ignored demo_deriveAccount demo_rawToNano demo_toISOString 60 demo_env
           (mkPaymentEvent "nano_1001" "nano_payer" "b2" 3 "3" (Some 60))
           demo_hook_processor H).
Defined.


Lemma handlePayment_completes_witness :
  chargeByAddress demo_full_payment.(pay_to) demo_manual_processor = Some ("c1", demo_charge) /\
  is_active demo_charge.(status) = true /\
  demo_charge.(amountRaw) <= demo_charge.(receivedRaw) + demo_full_payment.(pay_amount) /\
  demo_manual_processor.(autoSweep) = false /\
  let p' := handlePayment demo_deriveAccount demo_rawToNano demo_toISOString 60 demo_env
              demo_full_payment demo_manual_processor in
  (exists c', map_get "c1" p'.(charges) = Some c' /\ c'.(status) = completed /\
     c'.(completedAt) = Some (Some 60) /\
     c'.(receivedRaw) = demo_charge.(receivedRaw) + demo_full_payment.(pay_amount)) /\
  p'.(saveDebounceTimer) = false /\
  p'.(disk) = savePersistedState demo_toISOString
                (mkPersisted demo_manual_processor.(nextAccountIndex) (map snd p'.(charges))
                   (demo_toISOString 60)) /\
  p'.(addressToChargeId) = demo_manual_processor.(addressToChargeId) /\
  p'.(monitored) = demo_manual_processor.(monitored) /\
  p'.(ledgerSends) = demo_manual_processor.(ledgerSends).
Proof.
  assert (H3 : demo_charge.(amountRaw) <= demo_charge.(receivedRaw) +
                 demo_full_payment.(pay_amount)) by (cbn; lia).
  split; [reflexivity|]. split; [reflexivity|]. split; [exact H3|]. split; [reflexivity|].
  exact (handlePayment_completes demo_deriveAccount demo_rawToNano demo_toISOString 60 demo_env
           demo_full_payment demo_manual_processor "c1" demo_charge eq_refl eq_refl H3 eq_refl).
Defined.

Lemma checkExpiredCharges_releases_witness :
  map_get "c1" demo_processor.(charges) = Some demo_charge /\
  is_active demo_charge.(status) = true /\ date_lt demo_charge.(expiresAt) 2000000 = true /\
  (demo_charge.(receivedRaw) <= 0 \/ demo_processor.(autoSweep) = false) /\
  map_get demo_charge.(address)
    (fst (checkExpiredCharges 2000000 demo_processor)).(addressToChargeId) = None /\
  ~ In demo_charge.(address) (fst (checkExpiredCharges 2000000 demo_processor)).(monitored).
Proof.
  assert (H4 : demo_charge.(receivedRaw) <= 0 \/ demo_processor.(autoSweep) = false)
    by (left; cbn; lia).
  split; [reflexivity|]. split; [reflexivity|]. split; [reflexivity|]. split; [exact H4|].
  exact (checkExpiredCharges_releases 2000000 demo_processor "c1" demo_charge
           eq_refl eq_refl eq_refl H4).
Defined.

Lemma checkExpiredCharges_spawns_sweep_witness :
  map_get "c1" demo_partial_processor.(charges) = Some demo_partial_charge /\
  is_active demo_partial_charge.(status) = true /\
  date_lt demo_partial_charge.(expiresAt) 2000000 = true /\
  0 < demo_partial_charge.(receivedRaw) /\ demo_partial_processor.(autoSweep) = true /\
  In demo_partial_charge.(id) (snd (checkExpiredCharges 2000000 demo_partial_processor)).
Proof.
  assert (H4 : 0 < demo_partial_charge.(receivedRaw)) by (cbn; lia).
  split; [reflexivity|]. split; [reflexivity|]. split; [reflexivity|]. split; [exact H4|].
  split; [reflexivity|].
  exact (checkExpiredCharges_spawns_sweep 2000000 demo_partial_processor "c1"
           demo_partial_charge eq_refl eq_refl eq_refl H4 eq_refl).
Defined.

Lemma checkExpiredCharges_nothing_due_witness :
  (forall k c, map_get k demo_processor.(charges) = Some c ->
     is_active c.(status) && date_lt c.(expiresAt) 0 = false) /\
  checkExpiredCharges 0 demo_processor = (demo_processor, []).
Proof.
  assert (H : forall k c, map_get k demo_processor.(charges) = Some c ->
                is_active c.(status) && date_lt c.(expiresAt) 0 = false).
  { intros k c E. cbn in E. destruct (String.eqb k "c1"); [|discriminate].
    injection E as <-. reflexivity. }
  split; [exact H|].
  exact (checkExpiredCharges_nothing_due 0 demo_processor H).
Defined.

Lemma checkMissedPayments_nothing_pending_witness :
  (forall cid, fst ((fun _ : string => ([] : list (PendingBlock * bool), demo_env)) cid) = []) /\
  checkMissedPayments demo_deriveAccount demo_rawToNano demo_toISOString 0
    (fun _ => ([], demo_env)) demo_processor = demo_processor.
Proof.
  assert (H : forall cid,
            fst ((fun _ : string => ([] : list (PendingBlock * bool), demo_env)) cid) = [])
    by (intros; reflexivity).
  split; [exact H|].
  exact (checkMissedPayments_nothing_pending demo_deriveAccount demo_rawToNano
           demo_toISOString 0 (fun _ => ([], demo_env)) demo_processor H).
Defined.

Lemma sweepCharge_failure_keeps_charge_witness :
  map_get "c1" demo_processor.(charges) = Some demo_charge /\ demo_charge.(status) <> swept /\
  (demo_send_failed_env.(receivePendingOk) = false \/
   (demo_send_failed_env.(balance) <> 0 /\ demo_send_failed_env.(sendResult) = None)) /\
  let o := sweepCharge demo_deriveAccount demo_rawToNano demo_toISOString "c1" 7
             demo_send_failed_env demo_processor in
  (exists e, o = Err e (state_of o)) /\
  (state_of o).(charges) = demo_processor.(charges) /\
  (state_of o).(addressToChargeId) = demo_processor.(addressToChargeId) /\
  (state_of o).(monitored) = demo_processor.(monitored) /\
  (state_of o).(disk) = demo_processor.(disk) /\
  (state_of o).(saveDebounceTimer) = demo_processor.(saveDebounceTimer) /\
  (state_of o).(webhookPosts) = demo_processor.(webhookPosts) /\
  (state_of o).(events) = demo_processor.(events) ++ [("error", "c1")] /\
  (length (state_of o).(ledgerSends) <= S (length demo_processor.(ledgerSends)))%nat.
Proof.
  assert (H2 : demo_charge.(status) <> swept) by discriminate.
  assert (H3 : demo_send_failed_env.(receivePendingOk) = false \/
               (demo_send_failed_env.(balance) <> 0 /\ demo_send_failed_env.(sendResult) = None))
    by (right; split; [discriminate | reflexivity]).
  split; [reflexivity|]. split; [exact H2|]. split; [exact H3|].
  exact (sweepCharge_failure_keeps_charge demo_deriveAccount demo_rawToNano demo_toISOString
           "c1" 7 demo_send_failed_env demo_processor demo_charge eq_refl H2 H3).
Defined.

Lemma wallet_deriveAccount_cached_witness :
  Forall (fun e => snd e = demo_deriveAccount (fst e)) [(1, "nano_1")] /\
  let r := wallet_deriveAccount demo_deriveAccount 3 [(1, "nano_1")] in
  fst r = demo_deriveAccount 3 /\
  Forall (fun e => snd e = demo_deriveAccount (fst e)) (snd r) /\
  find (fun e => Z.eqb (fst e) 3) (snd r) <> None.
Proof.
  assert (H : Forall (fun e => snd e = demo_deriveAccount (fst e)) [(1, "nano_1")])
    by (constructor; [reflexivity | constructor]).
  split; [exact H|].
  exact (wallet_deriveAccount_cached demo_deriveAccount 3 [(1, "nano_1")] H).
Defined.
